(** * Vector2: an immutable 2D vector over Python floats

    A shallow embedding of [src/snippets/vector2.py].  Python floats are
    IEEE 754 binary64 numbers; they are modelled by the standard library's
    [spec_float] (precision 53, exponent bound 1024), whose operations are
    the round-to-nearest-even ones the hardware performs.  Exceptions are
    modelled by an error monad, and object identity by a store of
    [Vector2] instances. *)

From Stdlib Require Import ZArith Lia Bool String Ascii DecimalString.
From Stdlib Require Import Floats.SpecFloat.
From Stdlib Require Import Reals Lra.
From stdpp Require Import base gmap strings.

Local Open Scope Z_scope.

(** ** Python floats *)

Module PyFloat.

Definition prec : Z := 53.
Definition emax : Z := 1024.

Definition float : Type := spec_float.

Definition nan : float := S754_nan.
Definition inf : float := S754_infinity false.
Definition zero : float := S754_zero false.
Definition neg_zero : float := S754_zero true.

(** [float(n)] for an integer [n], rounded to nearest even. *)
Definition of_int (n : Z) : float := binary_normalize prec emax n 0 false.

(** [m * 2.0 ** e], as [math.ldexp] builds it. *)
Definition ldexp (f : float) (e : Z) : float := SFldexp prec emax f e.

Definition one : float := S754_finite false 4503599627370496 (-52).
Definition two : float := S754_finite false 4503599627370496 (-51).

Definition add : float -> float -> float := SFadd prec emax.
Definition sub : float -> float -> float := SFsub prec emax.
Definition mul : float -> float -> float := SFmul prec emax.
Definition div : float -> float -> float := SFdiv prec emax.
Definition sqrt : float -> float := SFsqrt prec emax.
Definition neg : float -> float := SFopp.
Definition eqb : float -> float -> bool := SFeqb.
Definition leb : float -> float -> bool := SFleb.
Definition ltb : float -> float -> bool := SFltb.

Definition is_nan (f : float) : bool :=
  match f with S754_nan => true | _ => false end.

(** Every Python float is a valid binary64 number. *)
Definition valid (f : float) : bool := valid_binary prec emax f.

End PyFloat.

Import PyFloat.

(** ** Exceptions and outcomes *)

(** The exception classes the module and the float operations raise, each
    with its message. *)
Inductive exception : Type :=
  | ValueError (msg : string)
  | TypeError (msg : string)
  | IndexError (msg : string)
  | ZeroDivisionError (msg : string)
  | AttributeError (msg : string).

(** The error kinds of the specification.  [ValueError] is what the
    zero-vector checks raise, [TypeError] what the operand dispatch raises
    and [IndexError] what indexing raises. *)
Inductive error_kind : Type :=
  | InvalidOperation
  | TypeMismatch
  | IndexOutOfRange.

Definition kind_of (e : exception) : option error_kind :=
  match e with
  | ValueError _ => Some InvalidOperation
  | TypeError _ => Some TypeMismatch
  | IndexError _ => Some IndexOutOfRange
  | ZeroDivisionError _ | AttributeError _ => None
  end.

Inductive outcome (A : Type) : Type :=
  | Ok (a : A)
  | Raise (e : exception).
Arguments Ok {A} a.
Arguments Raise {A} e.

#[global] Instance outcome_ret : MRet outcome := fun A a => Ok a.
#[global] Instance outcome_bind : MBind outcome := fun A B f m =>
  match m with
  | Ok a => f a
  | Raise e => Raise e
  end.
#[global] Instance outcome_throw : MThrow exception outcome := fun A e => Raise e.

(** ** Float operations that can raise *)

(** [a / b] on floats: CPython raises when the divisor compares equal to
    zero, whatever the dividend. *)
Definition float_truediv (a b : float) : outcome float :=
  if eqb b zero then Raise (ZeroDivisionError "float division by zero")
  else Ok (div a b).

(** [math.sqrt]: a NaN result from a non-NaN argument is a domain error. *)
Definition math_sqrt (a : float) : outcome float :=
  let r := sqrt a in
  if is_nan r && negb (is_nan a) then Raise (ValueError "math domain error")
  else Ok r.

(** ** Operand values *)

(** The values an operand of a [Vector2] operator can be, over the
    representation [ref] of a [Vector2] instance. *)
Inductive pyval (ref : Type) : Type :=
  | PFloat (f : float)
  | PInt (n : Z)
  | PBool (b : bool)
  | PStr (s : string)
  | PNone
  | PVec (v : ref).
Arguments PFloat {ref} f.
Arguments PInt {ref} n.
Arguments PBool {ref} b.
Arguments PStr {ref} s.
Arguments PNone {ref}.
Arguments PVec {ref} v.

Definition dquote : string := String (ascii_of_nat 34) EmptyString.

(** [str(type(other))]; the class is the one of module
    [snippets.vector2]. *)
Definition type_repr {ref} (other : pyval ref) : string :=
  match other with
  | PFloat _ => "<class 'float'>"
  | PInt _ => "<class 'int'>"
  | PBool _ => "<class 'bool'>"
  | PStr _ => "<class 'str'>"
  | PNone => "<class 'NoneType'>"
  | PVec _ => "<class 'snippets.vector2.Vector2'>"
  end.

(** [str(n)] for an integer. *)
Definition str_int (n : Z) : string := NilZero.string_of_int (Z.to_int n).

(** ** The runtime a method runs in *)

(** A method reads the two slots of an instance, builds new instances and
    raises.  [M] is the monad of effects, [ref] stands for an instance. *)
Class PyRuntime (M : Type -> Type) (ref : Type) := {
  rt_ret :: MRet M;
  rt_bind :: MBind M;
  rt_throw :: MThrow exception M;
  getattr_x : ref -> M float;
  getattr_y : ref -> M float;
  new_Vector2 : float -> float -> M ref
}.

Definition lift_outcome {M ref} `{PyRuntime M ref} {A} (o : outcome A) : M A :=
  match o with
  | Ok a => mret a
  | Raise e => mthrow e
  end.

(** ** The class [Vector2] *)

Module Vector2.
Section Methods.
Context {M : Type -> Type} {ref : Type} `{!PyRuntime M ref}.

(** [math.atan2], [math.acos] and [repr] of a float are library
    functions the class calls; the methods are parametric in them. *)
Variable math_atan2 : float -> float -> float.
Variable math_acos : float -> outcome float.
Variable float_repr : float -> string.

Definition x (self : ref) : M float := getattr_x self.

Definition y (self : ref) : M float := getattr_y self.

(** [self.__x == 0 and self.__y == 0]; the integer [0] compares as
    [0.0], and [and] evaluates its right operand only when needed. *)
Definition is_zero (self : ref) : M bool :=
  sx ← getattr_x self;
  if eqb sx zero then sy ← getattr_y self; mret (eqb sy zero)
  else mret false.

Definition square_magnitude (self : ref) : M float :=
  sx ← getattr_x self;
  sy ← getattr_y self;
  mret (add (mul sx sx) (mul sy sy)).

Definition magnitude (self : ref) : M float :=
  sx ← getattr_x self;
  sy ← getattr_y self;
  lift_outcome (math_sqrt (add (mul sx sx) (mul sy sy))).

Definition __truediv__ (self : ref) (other : pyval ref) : M ref :=
  match other with
  | PFloat o =>
      sx ← getattr_x self;
      qx ← lift_outcome (float_truediv sx o);
      sy ← getattr_y self;
      qy ← lift_outcome (float_truediv sy o);
      new_Vector2 qx qy
  | _ =>
      mthrow (TypeError ("Vector2 cannot be divided by type " +:+ dquote
                         +:+ type_repr other +:+ dquote +:+ "."))
  end.

Definition normalized (self : ref) : M ref :=
  z ← is_zero self;
  if z : bool then mthrow (ValueError "Cannot normalize zero-vector.")
  else m ← magnitude self; __truediv__ self (PFloat m).

Definition dot (self other : ref) : M float :=
  sx ← getattr_x self;
  ox ← x other;
  sy ← getattr_y self;
  oy ← y other;
  mret (add (mul sx ox) (mul sy oy)).

Definition cross (self other : ref) : M float :=
  sx ← getattr_x self;
  oy ← y other;
  sy ← getattr_y self;
  ox ← x other;
  mret (sub (mul sx oy) (mul sy ox)).

Definition angle (self : ref) : M float :=
  z ← is_zero self;
  if z : bool then mthrow (ValueError "Cannot get angle of zero-vector.")
  else
    sy ← getattr_y self;
    sx ← getattr_x self;
    mret (math_atan2 sy sx).

Definition angle_between (self other : ref) : M float :=
  z ← is_zero self;
  z' ← (if z : bool then mret true else is_zero other);
  if z' : bool then mthrow (ValueError "Cannot get angle of zero-vector.")
  else
    d ← dot self other;
    ms ← magnitude self;
    mo ← magnitude other;
    q ← lift_outcome (float_truediv d (mul ms mo));
    lift_outcome (math_acos q).

Definition __sub__ (self : ref) (other : pyval ref) : M ref :=
  match other with
  | PVec o =>
      sx ← getattr_x self;
      ox ← x o;
      sy ← getattr_y self;
      oy ← y o;
      new_Vector2 (sub sx ox) (sub sy oy)
  | _ =>
      mthrow (TypeError ("Type " +:+ dquote +:+ type_repr other +:+ dquote
                         +:+ " cannot be subtracted from Vector2."))
  end.

Definition distance (self other : ref) : M float :=
  d ← __sub__ other (PVec self);
  magnitude d.

Definition updated (self : ref) (ux uy : option float) : M ref :=
  new_x ← match ux with None => getattr_x self | Some v => mret v end;
  new_y ← match uy with None => getattr_y self | Some v => mret v end;
  new_Vector2 new_x new_y.

Definition __repr__ (self : ref) : M string :=
  sx ← getattr_x self;
  sy ← getattr_y self;
  mret ("Vector2(x=" +:+ float_repr sx +:+ ", y=" +:+ float_repr sy +:+ ")").

Definition __str__ (self : ref) : M string := __repr__ self.

Definition __eq__ (self : ref) (other : pyval ref) : M bool :=
  match other with
  | PVec o =>
      sx ← getattr_x self;
      ox ← x o;
      if eqb sx ox then
        sy ← getattr_y self;
        oy ← y o;
        mret (eqb sy oy)
      else mret false
  | _ =>
      mthrow (TypeError ("Vector2 cannot be compared to type " +:+ dquote
                         +:+ type_repr other +:+ dquote +:+ "."))
  end.

Definition __bool__ (self : ref) : M bool := is_zero self.

Definition __len__ (self : ref) : M Z := mret 2.

Definition __hash__ (self : ref) : M (float * float) :=
  sx ← x self;
  sy ← y self;
  mret (sx, sy).

Definition __add__ (self : ref) (other : pyval ref) : M ref :=
  match other with
  | PVec o =>
      sx ← getattr_x self;
      ox ← x o;
      sy ← getattr_y self;
      oy ← y o;
      new_Vector2 (add sx ox) (add sy oy)
  | _ =>
      mthrow (TypeError ("Type " +:+ dquote +:+ type_repr other +:+ dquote
                         +:+ " cannot be added to Vector2."))
  end.

Definition __mul__ (self : ref) (other : pyval ref) : M ref :=
  match other with
  | PFloat o =>
      sx ← getattr_x self;
      sy ← getattr_y self;
      new_Vector2 (mul sx o) (mul sy o)
  | PVec _ =>
      mthrow (TypeError ("Vector products should be calculated "
                         +:+ "with the Vector2.dot() method."))
  | _ =>
      mthrow (TypeError ("Vector2 cannot be multiplied by type " +:+ dquote
                         +:+ type_repr other +:+ dquote +:+ "."))
  end.

Definition __neg__ (self : ref) : M ref :=
  sx ← getattr_x self;
  sy ← getattr_y self;
  new_Vector2 (neg sx) (neg sy).

Definition __abs__ (self : ref) : M float := magnitude self.

Definition __getitem__ (self : ref) (idx : Z) : M float :=
  if idx =? 0 then getattr_x self
  else if idx =? 1 then getattr_y self
  else
    mthrow (IndexError
              ("Vector2 only has indicies [0, 1] for attributes [x, y], not "
               +:+ str_int idx +:+ ".")).

(** The sequence the iterator over [(self.__x, self.__y)] yields. *)
Definition __iter__ (self : ref) : M (list float) :=
  sx ← getattr_x self;
  sy ← getattr_y self;
  mret [sx; sy].

Definition __copy__ (self : ref) : M ref :=
  sx ← getattr_x self;
  sy ← getattr_y self;
  new_Vector2 sx sy.

(** *** The public interface

    One constructor per operation a caller can apply to an instance, with
    its arguments, and the value each returns. *)
Inductive operation : Type :=
  | Op_x
  | Op_y
  | Op_is_zero
  | Op_square_magnitude
  | Op_magnitude
  | Op_normalized
  | Op_dot (other : ref)
  | Op_cross (other : ref)
  | Op_angle
  | Op_angle_between (other : ref)
  | Op_distance (other : ref)
  | Op_updated (ux uy : option float)
  | Op_repr
  | Op_str
  | Op_eq (other : pyval ref)
  | Op_bool
  | Op_len
  | Op_hash
  | Op_add (other : pyval ref)
  | Op_sub (other : pyval ref)
  | Op_mul (other : pyval ref)
  | Op_truediv (other : pyval ref)
  | Op_neg
  | Op_abs
  | Op_getitem (idx : Z)
  | Op_iter
  | Op_copy.

Inductive retval : Type :=
  | RFloat (f : float)
  | RBool (b : bool)
  | RInt (n : Z)
  | RStr (s : string)
  | RPair (f g : float)
  | RSeq (fs : list float)
  | RVec (v : ref).

Definition call (self : ref) (op : operation) : M retval :=
  match op with
  | Op_x => f ← x self; mret (RFloat f)
  | Op_y => f ← y self; mret (RFloat f)
  | Op_is_zero => b ← is_zero self; mret (RBool b)
  | Op_square_magnitude => f ← square_magnitude self; mret (RFloat f)
  | Op_magnitude => f ← magnitude self; mret (RFloat f)
  | Op_normalized => r ← normalized self; mret (RVec r)
  | Op_dot other => f ← dot self other; mret (RFloat f)
  | Op_cross other => f ← cross self other; mret (RFloat f)
  | Op_angle => f ← angle self; mret (RFloat f)
  | Op_angle_between other => f ← angle_between self other; mret (RFloat f)
  | Op_distance other => f ← distance self other; mret (RFloat f)
  | Op_updated ux uy => r ← updated self ux uy; mret (RVec r)
  | Op_repr => s ← __repr__ self; mret (RStr s)
  | Op_str => s ← __str__ self; mret (RStr s)
  | Op_eq other => b ← __eq__ self other; mret (RBool b)
  | Op_bool => b ← __bool__ self; mret (RBool b)
  | Op_len => n ← __len__ self; mret (RInt n)
  | Op_hash => p ← __hash__ self; mret (RPair p.1 p.2)
  | Op_add other => r ← __add__ self other; mret (RVec r)
  | Op_sub other => r ← __sub__ self other; mret (RVec r)
  | Op_mul other => r ← __mul__ self other; mret (RVec r)
  | Op_truediv other => r ← __truediv__ self other; mret (RVec r)
  | Op_neg => r ← __neg__ self; mret (RVec r)
  | Op_abs => f ← __abs__ self; mret (RFloat f)
  | Op_getitem idx => f ← __getitem__ self idx; mret (RFloat f)
  | Op_iter => fs ← __iter__ self; mret (RSeq fs)
  | Op_copy => r ← __copy__ self; mret (RVec r)
  end.

(** The operations that build a vector. *)
Definition produces_vector (op : operation) : bool :=
  match op with
  | Op_normalized | Op_updated _ _ | Op_add _ | Op_sub _ | Op_mul _
  | Op_truediv _ | Op_neg | Op_copy => true
  | _ => false
  end.

(** [a * 2.0 == a + a]. *)
Definition double_agrees (a : ref) : M bool :=
  p ← __mul__ a (PFloat two);
  s ← __add__ a (PVec a);
  __eq__ p (PVec s).

(** [self.magnitude() >= 0]; the integer [0] compares as [0.0]. *)
Definition magnitude_nonneg (self : ref) : M bool :=
  m ← magnitude self;
  mret (leb zero m).

(** [self.normalized().magnitude()]. *)
Definition normalized_magnitude (self : ref) : M float :=
  n ← normalized self;
  magnitude n.

End Methods.

Arguments operation ref : clear implicits.
Arguments retval ref : clear implicits.
End Vector2.

(** ** Instances as values *)

(** No method writes a slot after construction, so an instance can be
    read as the pair of its components. *)
Record vec : Type := Vec { vec_x : float; vec_y : float }.

#[global] Instance value_runtime : PyRuntime outcome vec := {|
  getattr_x := fun v => Ok (vec_x v);
  getattr_y := fun v => Ok (vec_y v);
  new_Vector2 := fun fx fy => Ok (Vec fx fy)
|}.

(** ** Instances as objects in a store *)

Definition loc : Type := positive.

(** An object of the class has the two slots [__x] and [__y], unset until
    [__init__] assigns them. *)
Record object : Type := Object { slot_x : option float; slot_y : option float }.

Abbreviation heap := (gmap loc object).

(** A computation over the store; [None] is a reference to no object,
    which no Python program holds. *)
Definition heapM (A : Type) : Type := heap -> option (outcome A * heap).

#[global] Instance heap_ret : MRet heapM := fun A a h => Some (Ok a, h).
#[global] Instance heap_bind : MBind heapM := fun A B f m h =>
  match m h with
  | Some (Ok a, h') => f a h'
  | Some (Raise e, h') => Some (Raise e, h')
  | None => None
  end.
#[global] Instance heap_throw : MThrow exception heapM :=
  fun A e h => Some (Raise e, h).

Definition read_slot (slot : object -> option float) (name : string)
    (l : loc) : heapM float := fun h =>
  match h !! l with
  | None => None
  | Some o =>
      match slot o with
      | Some f => Some (Ok f, h)
      | None => Some (Raise (AttributeError name), h)
      end
  end.

Definition setattr_x (l : loc) (f : float) : heapM unit := fun h =>
  match h !! l with
  | None => None
  | Some o => Some (Ok tt, <[l := Object (Some f) (slot_y o)]> h)
  end.

Definition setattr_y (l : loc) (f : float) : heapM unit := fun h =>
  match h !! l with
  | None => None
  | Some o => Some (Ok tt, <[l := Object (slot_x o) (Some f)]> h)
  end.

(** A new object, at an address no object of the store has. *)
Definition allocate : heapM loc := fun h =>
  let l := fresh (dom h) in Some (Ok l, <[l := Object None None]> h).

Definition __init__ (self : loc) (fx fy : float) : heapM unit :=
  setattr_x self fx;; setattr_y self fy.

(** The call [Vector2(fx, fy)]. *)
Definition construct (fx fy : float) : heapM loc :=
  self ← allocate; __init__ self fx fy;; mret self.

#[global] Instance heap_runtime : PyRuntime heapM loc := {|
  getattr_x := read_slot slot_x "__x";
  getattr_y := read_slot slot_y "__y";
  new_Vector2 := construct
|}.

(** The object that holds the components of [v]. *)
Definition object_of (v : vec) : object :=
  Object (Some (vec_x v)) (Some (vec_y v)).

(** ** Sample values and auxiliary predicates *)

Definition three : float := of_int 3.
Definition four : float := of_int 4.
Definition five : float := of_int 5.
Definition ten : float := of_int 10.

(** [2.0 ** -600], whose square underflows to zero. *)
Definition tiny : float := ldexp one (-600).

(** [sub] occurs in [s]. *)
Definition occurs_in (sub s : string) : Prop :=
  ∃ pre post, s = pre +:+ sub +:+ post.

Definition is_vector {ref} (other : pyval ref) : bool :=
  match other with PVec _ => true | _ => false end.

Definition is_float {ref} (other : pyval ref) : bool :=
  match other with PFloat _ => true | _ => false end.

(** [f] is no NaN and carries the sign bit [s]. *)
Definition has_sign (s : bool) (f : float) : Prop :=
  match f with
  | S754_zero s' | S754_infinity s' | S754_finite s' _ _ => s' = s
  | S754_nan => False
  end.

(** ** The real number a float stands for *)

(** [2 ^ e] as a real, for any integer [e]. *)
Definition pow2 (e : Z) : R := powerRZ 2 e.

Definition B2R (f : float) : R :=
  match f with
  | S754_finite s m e =>
      ((if s then -1 else 1) * IZR (Z.pos m) * pow2 e)%R
  | _ => 0%R
  end.

(** The magnitude of a float. *)
Definition mag (f : float) : R := Rabs (B2R f).

Definition is_finite (f : float) : bool :=
  match f with
  | S754_zero _ | S754_finite _ _ _ => true
  | _ => false
  end.

(** The unit roundoff of a faithful rounding, and the least subnormal. *)
Definition eps : R := pow2 (-52).
Definition eta : R := pow2 (-1074).

(** The float that [binary_round_aux] builds from the final mantissa and
    exponent. *)
Definition build (s : bool) (m e : Z) : float :=
  match m with
  | Z0 => S754_zero s
  | Z.pos p => if e <=? emax - prec then S754_finite s p e else S754_infinity s
  | Z.neg _ => S754_nan
  end.

(** A component that is zero, or finite with [2^-500 <= |c| < 2^500]: its
    square neither overflows nor underflows. *)
Definition moderate (c : float) : bool :=
  valid c &&
  match c with
  | S754_zero _ => true
  | S754_finite _ m e =>
      (-499 <=? Z.pos (digits2_pos m) + e)
      && (Z.pos (digits2_pos m) + e <=? 500)
  | _ => false
  end.

(** How far from [1.0] the magnitude of a normalized vector can be. *)
Definition tolerance : R := pow2 (-48).

(** ** Relating the store to values *)

(** The value of the instance at [l], when its slots are set. *)
Definition deref (h : heap) (l : loc) : option vec :=
  match h !! l with
  | Some (Object (Some fx) (Some fy)) => Some (Vec fx fy)
  | _ => None
  end.

(** An operand, with the instance it refers to read from the store. *)
Definition operand_value (h : heap) (other : pyval loc) : option (pyval vec) :=
  match other with
  | PFloat f => Some (PFloat f)
  | PInt n => Some (PInt n)
  | PBool b => Some (PBool b)
  | PStr s => Some (PStr s)
  | PNone => Some PNone
  | PVec l => PVec <$> deref h l
  end.

Definition operation_value (h : heap) (op : Vector2.operation loc)
    : option (Vector2.operation vec) :=
  match op with
  | Vector2.Op_x => Some Vector2.Op_x
  | Vector2.Op_y => Some Vector2.Op_y
  | Vector2.Op_is_zero => Some Vector2.Op_is_zero
  | Vector2.Op_square_magnitude => Some Vector2.Op_square_magnitude
  | Vector2.Op_magnitude => Some Vector2.Op_magnitude
  | Vector2.Op_normalized => Some Vector2.Op_normalized
  | Vector2.Op_dot o => Vector2.Op_dot <$> deref h o
  | Vector2.Op_cross o => Vector2.Op_cross <$> deref h o
  | Vector2.Op_angle => Some Vector2.Op_angle
  | Vector2.Op_angle_between o => Vector2.Op_angle_between <$> deref h o
  | Vector2.Op_distance o => Vector2.Op_distance <$> deref h o
  | Vector2.Op_updated ux uy => Some (Vector2.Op_updated ux uy)
  | Vector2.Op_repr => Some Vector2.Op_repr
  | Vector2.Op_str => Some Vector2.Op_str
  | Vector2.Op_eq o => Vector2.Op_eq <$> operand_value h o
  | Vector2.Op_bool => Some Vector2.Op_bool
  | Vector2.Op_len => Some Vector2.Op_len
  | Vector2.Op_hash => Some Vector2.Op_hash
  | Vector2.Op_add o => Vector2.Op_add <$> operand_value h o
  | Vector2.Op_sub o => Vector2.Op_sub <$> operand_value h o
  | Vector2.Op_mul o => Vector2.Op_mul <$> operand_value h o
  | Vector2.Op_truediv o => Vector2.Op_truediv <$> operand_value h o
  | Vector2.Op_neg => Some Vector2.Op_neg
  | Vector2.Op_abs => Some Vector2.Op_abs
  | Vector2.Op_getitem idx => Some (Vector2.Op_getitem idx)
  | Vector2.Op_iter => Some Vector2.Op_iter
  | Vector2.Op_copy => Some Vector2.Op_copy
  end.

(** A result over the store stands for a result on values: the same
    scalar, or a reference to an object holding the vector. *)
Definition retval_agrees (h : heap) (r : Vector2.retval loc)
    (r' : Vector2.retval vec) : Prop :=
  match r, r' with
  | Vector2.RFloat f, Vector2.RFloat f' => f = f'
  | Vector2.RBool b, Vector2.RBool b' => b = b'
  | Vector2.RInt n, Vector2.RInt n' => n = n'
  | Vector2.RStr s, Vector2.RStr s' => s = s'
  | Vector2.RPair f g, Vector2.RPair f' g' => f = f' ∧ g = g'
  | Vector2.RSeq fs, Vector2.RSeq fs' => fs = fs'
  | Vector2.RVec l, Vector2.RVec w => h !! l = Some (object_of w)
  | _, _ => False
  end.

Definition outcome_agrees (h : heap) (o : outcome (Vector2.retval loc))
    (o' : outcome (Vector2.retval vec)) : Prop :=
  match o, o' with
  | Ok r, Ok r' => retval_agrees h r r'
  | Raise e, Raise e' => e = e'
  | _, _ => False
  end.

Definition sample_heap : heap :=
  <[2%positive := object_of (Vec one two)]>
    {[ 1%positive := object_of (Vec three four) ]}.

(** ** Auxiliary definitions for the algebra of the operations *)

(** A float that is [+0.0] or [-0.0]. *)
Definition is_zero_float (f : float) : bool :=
  match f with S754_zero _ => true | _ => false end.

(** The argument [updated] uses: the later one when it is given. *)
Definition keep_or (new old : option float) : option float :=
  match new with
  | Some _ => new
  | None => old
  end.

(** ** The generator [buffered_read] *)

Module Io.
Section BufferedRead.

(** The characters of a text; a [str] is a list of them. *)
Context {char : Type}.

(** A text file open for reading, as [buffered_read] sees it: the
    characters not read yet, and whether the file has been closed. *)
Record text_file : Type := TextFile { unread : list char; closed : bool }.

(** [file.read(size)]: at most [size] characters, all of them when
    [size] is negative, the empty string at the end of the file; a closed
    file raises. *)
Definition read (file : text_file) (size : Z)
    : outcome (list char) * text_file :=
  if closed file then
    (Raise (ValueError "I/O operation on closed file."), file)
  else if size <? 0 then (Ok (unread file), TextFile [] false)
  else
    (Ok (take (Z.to_nat size) (unread file)),
     TextFile (drop (Z.to_nat size) (unread file)) false).

(** Where the body of the generator stands: not started, suspended at
    the [yield] with the characters of [buf] still to come, or returned. *)
Inductive frame : Type :=
  | Created
  | Suspended (rest : list char)
  | Finished.

Record generator : Type := Generator { bufsize : Z; gi_frame : frame }.


(** What a call of [next] gives. *)
Inductive event : Type :=
  | Yield (c : char)
  | StopIteration
  | Raised (e : exception).

(** The head of the loop, [while buf := file.read(bufsize)], up to the
    first [yield]. *)
Definition refill (size : Z) (file : text_file)
    : event * generator * text_file :=
  match read file size with
  | (Raise e, file') => (Raised e, Generator size Finished, file')
  | (Ok [], file') => (StopIteration, Generator size Finished, file')
  | (Ok (c :: rest), file') => (Yield c, Generator size (Suspended rest), file')
  end.

(** [next(gen)], on the file in its current state. *)
Definition next (gen : generator) (file : text_file)
    : event * generator * text_file :=
  match gi_frame gen with
  | Created => refill (bufsize gen) file
  | Suspended (c :: rest) =>
      (Yield c, Generator (bufsize gen) (Suspended rest), file)
  | Suspended [] => refill (bufsize gen) file
  | Finished => (StopIteration, gen, file)
  end.


(** [n] calls of [next]: the characters yielded, in order, and the
    generator and the file after the last call. *)
Fixpoint advance (n : nat) (gen : generator) (file : text_file)
    : list char * generator * text_file :=
  match n with
  | O => ([], gen, file)
  | S n =>
      match next gen file with
      | (Yield c, gen', file') =>
          let '(cs, gen'', file'') := advance n gen' file' in
          (c :: cs, gen'', file'')
      | (_, gen', file') => advance n gen' file'
      end
  end.




End BufferedRead.
Arguments text_file char : clear implicits.
Arguments generator char : clear implicits.
Arguments frame char : clear implicits.
Arguments event char : clear implicits.
End Io.

(** ** Examples *)
Example of_int_1 : of_int 1 = one.
Proof. reflexivity. Qed.

Example of_int_2 : of_int 2 = two.
Proof. reflexivity. Qed.

Example magnitude_3_4 : Vector2.magnitude (Vec three four) = Ok five.
Proof. vm_compute. reflexivity. Qed.

Example tiny_square : mul tiny tiny = zero.
Proof. vm_compute. reflexivity. Qed.

Example construct_empty :
  construct three four ∅ = Some (Ok 1%positive, {[ 1%positive := object_of (Vec three four) ]}).
Proof. vm_compute. reflexivity. Qed.

(** ** Reading the methods on values *)


Lemma is_zero_value (v : vec) :
  Vector2.is_zero v = Ok (eqb (vec_x v) zero && eqb (vec_y v) zero).
Proof.
  unfold Vector2.is_zero; simpl.
  destruct (eqb (vec_x v) zero); reflexivity.
Qed.

Lemma eqb_zero_iff (f : float) :
  eqb f zero = true ↔ ∃ s, f = S754_zero s.
Proof.
  split.
  - destruct f as [s|s| |s m e]; try (destruct s); try discriminate; eauto.
  - intros [s ->]. reflexivity.
Qed.

Lemma truediv_value (v : vec) (s : float) :
  eqb s zero = false →
  Vector2.__truediv__ v (PFloat s)
  = Ok (Vec (div (vec_x v) s) (div (vec_y v) s)).
Proof.
  intros Hs. unfold Vector2.__truediv__, float_truediv; simpl.
  rewrite Hs. reflexivity.
Qed.

Lemma truediv_zero (v : vec) (s : float) :
  eqb s zero = true →
  Vector2.__truediv__ v (PFloat s)
  = Raise (ZeroDivisionError "float division by zero").
Proof.
  intros Hs. unfold Vector2.__truediv__, float_truediv; simpl.
  rewrite Hs. reflexivity.
Qed.

(** ** Operand dispatch *)

(** C5: index 0 is [x], index 1 is [y], and any other index raises
    [IndexError] (the IndexOutOfRange kind) with the index in the message. *)
Theorem getitem_spec (v : vec) (idx : Z) :
  Vector2.__getitem__ v 0 = Ok (vec_x v) ∧
  Vector2.__getitem__ v 1 = Ok (vec_y v) ∧
  (idx ≠ 0 → idx ≠ 1 →
   ∃ msg, Vector2.__getitem__ v idx = Raise (IndexError msg) ∧
          kind_of (IndexError msg) = Some IndexOutOfRange ∧
          occurs_in (str_int idx) msg).
Proof.
  split; [reflexivity | split; [reflexivity |]].
  intros H0 H1. unfold Vector2.__getitem__.
  destruct (Z.eqb_spec idx 0) as [|_]; [contradiction |].
  destruct (Z.eqb_spec idx 1) as [|_]; [contradiction |].
  eexists. split; [reflexivity | split; [reflexivity |]].
  eexists _, _. reflexivity.
Qed.

Lemma getitem_spec_witness :
  Vector2.__getitem__ (Vec three four) 0 = Ok three ∧
  Vector2.__getitem__ (Vec three four) 1 = Ok four ∧
  ∃ msg, Vector2.__getitem__ (Vec three four) 2 = Raise (IndexError msg) ∧
         kind_of (IndexError msg) = Some IndexOutOfRange ∧
         occurs_in (str_int 2) msg.
Proof.
  destruct (getitem_spec (Vec three four) 2) as (Hx & Hy & Herr).
  split; [exact Hx | split; [exact Hy |]].
  apply Herr; lia.
Defined.

Example getitem_2_message :
  Vector2.__getitem__ (Vec three four) 2
  = Raise (IndexError
      "Vector2 only has indicies [0, 1] for attributes [x, y], not 2.").
Proof. reflexivity. Qed.

(** C3, as the code has it: a float operand scales both components; a
    [Vector2] operand raises [TypeError], the class every other rejected
    operand raises, with a message of its own that points to
    [Vector2.dot()]; any other operand raises [TypeError] naming its type. *)
Theorem mul_spec (v : vec) (other : pyval vec) :
  (∀ s, Vector2.__mul__ v (PFloat s)
        = Ok (Vec (mul (vec_x v) s) (mul (vec_y v) s))) ∧
  (∀ w, ∃ msg, Vector2.__mul__ v (PVec w) = Raise (TypeError msg) ∧
               kind_of (TypeError msg) = Some TypeMismatch ∧
               occurs_in "Vector2.dot()" msg) ∧
  (is_float other = false → is_vector other = false →
   ∃ msg, Vector2.__mul__ v other = Raise (TypeError msg) ∧
          kind_of (TypeError msg) = Some TypeMismatch ∧
          occurs_in (type_repr other) msg).
Proof.
  split; [reflexivity | split].
  - intros w. eexists. split; [reflexivity | split; [reflexivity |]].
    exists "Vector products should be calculated with the ", " method.".
    reflexivity.
  - intros Hf Hv.
    destruct other; try discriminate;
      (eexists; split; [reflexivity | split; [reflexivity |]];
       exists ("Vector2 cannot be multiplied by type " +:+ dquote),
              (dquote +:+ "."); reflexivity).
Qed.

Lemma mul_spec_witness :
  ∃ msg, Vector2.__mul__ (Vec one two) (PStr "2") = Raise (TypeError msg) ∧
         kind_of (TypeError msg) = Some TypeMismatch ∧
         occurs_in (type_repr (ref := vec) (PStr "2")) msg.
Proof.
  destruct (mul_spec (Vec one two) (PStr "2")) as (_ & _ & H).
  apply H; reflexivity.
Defined.

(** C3 fails as stated: the product of two vectors does not raise the
    exception of the InvalidOperation kind. *)
Lemma mul_vector_not_invalid_operation :
  ¬ ∃ e, Vector2.__mul__ (Vec one two) (PVec (Vec three four)) = Raise e ∧
         kind_of e = Some InvalidOperation.
Proof.
  intros (e & He & Hk). vm_compute in He.
  injection He as <-. discriminate Hk.
Qed.

(** C10: an [int] operand is no [float]: both [v * n] and [v / n] raise
    [TypeError], while [v * 2.0] returns. *)
Theorem int_scalar_rejected (v : vec) (n : Z) :
  (∃ msg, Vector2.__mul__ v (PInt n) = Raise (TypeError msg) ∧
          kind_of (TypeError msg) = Some TypeMismatch) ∧
  (∃ msg, Vector2.__truediv__ v (PInt n) = Raise (TypeError msg) ∧
          kind_of (TypeError msg) = Some TypeMismatch) ∧
  Vector2.__mul__ v (PInt 2) ≠ Vector2.__mul__ v (PFloat two) ∧
  Vector2.__mul__ v (PFloat two)
  = Ok (Vec (mul (vec_x v) two) (mul (vec_y v) two)).
Proof.
  split; [eexists; split; reflexivity |].
  split; [eexists; split; reflexivity |].
  split; [discriminate | reflexivity].
Qed.

(** C4: two vectors are equal iff both components are, under the float
    equality (so a vector with a NaN component differs from itself), and
    an operand that is no [Vector2] raises [TypeError]. *)
Theorem eq_spec (a b : vec) (other : pyval vec) :
  Vector2.__eq__ a (PVec b)
  = Ok (eqb (vec_x a) (vec_x b) && eqb (vec_y a) (vec_y b)) ∧
  (is_nan (vec_x a) || is_nan (vec_y a) = true →
   Vector2.__eq__ a (PVec a) = Ok false) ∧
  (is_vector other = false →
   ∃ msg, Vector2.__eq__ a other = Raise (TypeError msg) ∧
          kind_of (TypeError msg) = Some TypeMismatch).
Proof.
  assert (Heq : ∀ u w, Vector2.__eq__ u (PVec w)
            = Ok (eqb (vec_x u) (vec_x w) && eqb (vec_y u) (vec_y w))).
  { intros u w. unfold Vector2.__eq__, Vector2.x, Vector2.y; simpl.
    destruct (eqb (vec_x u) (vec_x w)); reflexivity. }
  split; [apply Heq | split].
  - intros Hnan. rewrite Heq. f_equal.
    destruct a as [ax ay]; simpl in *.
    apply orb_true_iff in Hnan as [Hx | Hy].
    + destruct ax; try discriminate. reflexivity.
    + destruct ay; try discriminate. apply andb_false_r.
  - intros Hv. destruct other; try discriminate;
      (eexists; split; reflexivity).
Qed.

Lemma eq_spec_witness :
  Vector2.__eq__ (Vec nan one) (PVec (Vec nan one)) = Ok false ∧
  ∃ msg, Vector2.__eq__ (Vec nan one) (PInt 5) = Raise (TypeError msg) ∧
         kind_of (TypeError msg) = Some TypeMismatch.
Proof.
  destruct (eq_spec (Vec nan one) (Vec nan one) (PInt 5)) as (_ & Hn & Ht).
  split; [apply Hn | apply Ht]; reflexivity.
Defined.

(** C9: the boolean conversion is [is_zero]: true exactly when both
    components equal [0.0], so the zero vector is the truthy one. *)
Theorem bool_is_zero (v : vec) :
  Vector2.__bool__ v = Vector2.is_zero v ∧
  (∃ b, Vector2.__bool__ v = Ok b ∧
        (b = true ↔ eqb (vec_x v) zero = true ∧ eqb (vec_y v) zero = true)) ∧
  Vector2.__bool__ (Vec zero zero) = Ok true ∧
  Vector2.__bool__ (Vec three four) = Ok false.
Proof.
  split; [reflexivity |].
  split; [| split; reflexivity].
  unfold Vector2.__bool__. rewrite is_zero_value.
  eexists. split; [reflexivity |]. apply andb_true_iff.
Qed.

(** ** Signs of float results *)

Section Iter.
Context {A : Type} (f : A → A) (P : A → Prop).
Hypothesis f_keeps : ∀ a, P a → P (f a).

Lemma iter_pos_keeps (n : positive) (a : A) :
  P a → P (SpecFloat.iter_pos f n a).
Proof using f_keeps.
  revert a. induction n as [n IH | n IH |]; intros a Ha; simpl; auto.
Qed.
End Iter.

Lemma shr_1_nonneg (mrs : shr_record) :
  0 ≤ shr_m mrs → 0 ≤ shr_m (shr_1 mrs).
Proof.
  destruct mrs as [m r s]; simpl.
  destruct m as [|[p|p|]|p]; simpl; lia.
Qed.

Lemma shr_nonneg (mrs : shr_record) (e n : Z) :
  0 ≤ shr_m mrs → 0 ≤ shr_m (fst (shr mrs e n)).
Proof.
  intros H. destruct n as [|p|p]; simpl; auto.
  apply (iter_pos_keeps shr_1 (λ r, 0 ≤ shr_m r)); auto using shr_1_nonneg.
Qed.

Lemma shr_fexp_nonneg (m e : Z) (l : location) :
  0 ≤ m → 0 ≤ shr_m (fst (shr_fexp prec emax m e l)).
Proof.
  intros H. unfold shr_fexp. apply shr_nonneg.
  destruct l as [|[]]; exact H.
Qed.

Lemma round_nearest_even_nonneg (m : Z) (l : location) :
  0 ≤ m → 0 ≤ round_nearest_even m l.
Proof.
  intros H. destruct l as [|[]]; simpl; try lia.
  destruct (Z.even m); lia.
Qed.

Lemma binary_round_aux_sign (s : bool) (m e : Z) (l : location) :
  0 ≤ m → has_sign s (binary_round_aux prec emax s m e l).
Proof.
  intros H. unfold binary_round_aux.
  pose proof (shr_fexp_nonneg m e l H) as H1.
  destruct (shr_fexp prec emax m e l) as [mrs' e']; simpl in H1.
  pose proof (shr_fexp_nonneg _ e' loc_Exact
                (round_nearest_even_nonneg _ (loc_of_shr_record mrs') H1)) as H2.
  destruct (shr_fexp prec emax _ e' loc_Exact) as [mrs'' e'']; simpl in H2.
  destruct (shr_m mrs'') as [|p|p]; simpl; [reflexivity | | lia].
  destruct (e'' <=? emax - prec); reflexivity.
Qed.

Lemma binary_round_sign (s : bool) (m : positive) (e : Z) :
  has_sign s (binary_round prec emax s m e).
Proof.
  unfold binary_round.
  destruct (shl_align m e _) as [mz ez].
  apply binary_round_aux_sign. lia.
Qed.

Lemma mul_self_nonneg (f : float) :
  is_nan f = false → has_sign false (mul f f).
Proof.
  intros Hf. destruct f as [s|s| |s m e]; try discriminate; simpl.
  - apply xorb_nilpotent.
  - apply xorb_nilpotent.
  - rewrite xorb_nilpotent. apply binary_round_aux_sign. lia.
Qed.

Lemma add_nonneg (a b : float) :
  has_sign false a → has_sign false b → has_sign false (add a b).
Proof.
  destruct a as [sa|sa| |sa ma ea], b as [sb|sb| |sb mb eb]; simpl;
    intros Ha Hb; subst; try contradiction; try reflexivity.
  unfold binary_normalize, cond_Zopp.
  match goal with |- context [Z.pos ?p + Z.pos ?q] =>
    change (Z.pos p + Z.pos q) with (Z.pos (p + q)) end.
  apply binary_round_sign.
Qed.

Lemma sqrt_nonneg (a : float) :
  has_sign false a → has_sign false (sqrt a).
Proof.
  destruct a as [s|s| |s m e]; simpl; intros Ha; subst;
    try contradiction; try reflexivity.
  unfold SFsqrt_core_binary.
  match goal with |- context [Z.sqrtrem ?m'] =>
    pose proof (Z.sqrtrem_sqrt m') as Hq;
    destruct (Z.sqrtrem m') as [q r]; simpl in Hq end.
  apply binary_round_aux_sign. subst q. apply Z.sqrt_nonneg.
Qed.

Lemma math_sqrt_nonneg (a : float) :
  has_sign false a →
  math_sqrt a = Ok (sqrt a) ∧ has_sign false (sqrt a).
Proof.
  intros Ha. pose proof (sqrt_nonneg a Ha) as Hr. split; [| exact Hr].
  unfold math_sqrt.
  destruct (sqrt a); simpl in *; try reflexivity. contradiction.
Qed.

Lemma leb_zero_nonneg (m : float) : has_sign false m → leb zero m = true.
Proof.
  destruct m as [s|s| |s k e]; simpl; intros H; subst;
    try contradiction; reflexivity.
Qed.

(** ** Doubling a float *)

Lemma fexp_normal (k : Z) : -1021 ≤ k → fexp prec emax k = k - 53.
Proof. unfold fexp, SpecFloat.emin, prec, emax. lia. Qed.

Lemma fexp_subnormal (k : Z) : k ≤ -1021 → fexp prec emax k = -1074.
Proof. unfold fexp, SpecFloat.emin, prec, emax. lia. Qed.

(** A valid finite float is normal (53 digits) or has the least exponent. *)
Lemma bounded_cases (m : positive) (e : Z) :
  SpecFloat.bounded prec emax m e = true →
  (Z.pos (digits2_pos m) = 53 ∧ -1074 ≤ e ≤ 971) ∨
  (Z.pos (digits2_pos m) < 53 ∧ e = -1074).
Proof.
  unfold SpecFloat.bounded, canonical_mantissa, fexp, SpecFloat.emin, prec, emax.
  intros H. apply andb_true_iff in H as [Hc He].
  apply Z.eqb_eq in Hc. apply Z.leb_le in He. lia.
Qed.

Lemma mul_pow52 (m : positive) :
  (m * 4503599627370496)%positive = Pos.iter xO m 52.
Proof. rewrite Pos.mul_comm. reflexivity. Qed.

Lemma digits2_iter_xO (n m : positive) :
  Z.pos (digits2_pos (Pos.iter xO m n)) = Z.pos (digits2_pos m) + Z.pos n.
Proof.
  induction n as [|n IH] using Pos.peano_ind.
  - simpl. lia.
  - rewrite Pos.iter_succ. cbn [digits2_pos]. lia.
Qed.

Lemma digits2_shift52 (m : positive) :
  Z.pos (digits2_pos (m * 4503599627370496)) = Z.pos (digits2_pos m) + 52.
Proof. rewrite mul_pow52. apply digits2_iter_xO. Qed.

Lemma shr_shift52 (m : positive) :
  SpecFloat.iter_pos shr_1 52
    (Build_shr_record (Z.pos (m * 4503599627370496)) false false)
  = Build_shr_record (Z.pos m) false false.
Proof. rewrite Pos.mul_comm. reflexivity. Qed.

Lemma shr_shift51 (m : positive) :
  SpecFloat.iter_pos shr_1 51
    (Build_shr_record (Z.pos (m * 4503599627370496)) false false)
  = Build_shr_record (Z.pos m~0) false false.
Proof. rewrite Pos.mul_comm. reflexivity. Qed.

Lemma shr_fexp_double (m : positive) (e : Z) :
  SpecFloat.bounded prec emax m e = true →
  shr_fexp prec emax (Z.pos (m * 4503599627370496)) (e + -51) loc_Exact
  = shr_fexp prec emax (Z.pos m~0) e loc_Exact.
Proof.
  intros Hb. unfold shr_fexp, Zdigits2.
  rewrite digits2_shift52.
  replace (Z.pos (digits2_pos m~0)) with (Z.pos (digits2_pos m) + 1)
    by (cbn [digits2_pos]; lia).
  destruct (bounded_cases m e Hb) as [[Hd He] | [Hd He]].
  - rewrite !fexp_normal by lia.
    replace (_ - (e + -51)) with 52 by lia.
    replace (_ - e) with 1 by lia.
    unfold shr, shr_record_of_loc. rewrite shr_shift52.
    cbn [SpecFloat.iter_pos shr_1]. f_equal. lia.
  - rewrite !fexp_subnormal by lia.
    replace (_ - (e + -51)) with 51 by lia.
    replace (_ - e) with 0 by lia.
    unfold shr, shr_record_of_loc. rewrite shr_shift51.
    f_equal. lia.
Qed.

Lemma shl_align_double (m : positive) (e : Z) :
  SpecFloat.bounded prec emax m e = true →
  shl_align m~0 e (fexp prec emax (Z.pos (digits2_pos m~0) + e)) = (m~0, e)%positive.
Proof.
  intros Hb. unfold shl_align.
  replace (Z.pos (digits2_pos m~0)) with (Z.pos (digits2_pos m) + 1)
    by (cbn [digits2_pos]; lia).
  destruct (bounded_cases m e Hb) as [[Hd He] | [Hd He]].
  - rewrite fexp_normal by lia.
    replace (_ - e) with 1 by lia. reflexivity.
  - rewrite fexp_subnormal by lia.
    replace (_ - e) with 0 by lia. reflexivity.
Qed.

(** [f * 2.0] and [f + f] are the same float. *)
Lemma mul_two_add_self (f : float) :
  valid f = true → mul f two = add f f.
Proof.
  destruct f as [s|s| |s m e]; intros Hv.
  - destruct s; reflexivity.
  - destruct s; reflexivity.
  - reflexivity.
  - unfold valid, valid_binary in Hv.
    unfold mul, add, two, SFmul, SFadd.
    rewrite xorb_false_r, Z.min_id.
    replace (shl_align m e e) with (m, e)
      by (unfold shl_align; rewrite Z.sub_diag; reflexivity).
    cbn [fst].
    assert (Hsum : cond_Zopp s (Z.pos m) + cond_Zopp s (Z.pos m)
                   = cond_Zopp s (Z.pos m~0)) by (destruct s; simpl; lia).
    rewrite Hsum.
    assert (Hn : binary_normalize prec emax (cond_Zopp s (Z.pos m~0)) e false
                 = binary_round prec emax s m~0 e) by (destruct s; reflexivity).
    rewrite Hn. unfold binary_round. rewrite shl_align_double by exact Hv.
    unfold binary_round_aux. rewrite shr_fexp_double by exact Hv.
    reflexivity.
Qed.

Lemma eqb_refl (s : bool) (f : float) : has_sign s f → eqb f f = true.
Proof.
  destruct f as [s'|s'| |s' m e]; simpl; intros H; try contradiction.
  - reflexivity.
  - destruct s'; reflexivity.
  - unfold eqb, SFeqb, SFcompare.
    rewrite Z.compare_refl.
    change (Pos.compare_cont Eq m m) with (m ?= m)%positive.
    rewrite Pos.compare_refl. destruct s'; reflexivity.
Qed.

Lemma add_self_sign (f : float) :
  is_nan f = false → ∃ s, has_sign s (add f f).
Proof.
  destruct f as [s|s| |s m e]; intros Hn; try discriminate.
  - exists s. destruct s; reflexivity.
  - exists s. destruct s; reflexivity.
  - exists s. unfold add, SFadd. rewrite Z.min_id.
    replace (shl_align m e e) with (m, e)
      by (unfold shl_align; rewrite Z.sub_diag; reflexivity).
    destruct s; cbn [fst cond_Zopp Z.opp Z.add binary_normalize];
      apply binary_round_sign.
Qed.

(** ** The magnitude and its sign *)

Lemma magnitude_value (v : vec) :
  Vector2.magnitude v
  = math_sqrt (add (mul (vec_x v) (vec_x v)) (mul (vec_y v) (vec_y v))).
Proof.
  unfold Vector2.magnitude; simpl.
  destruct (math_sqrt _); reflexivity.
Qed.

(** The magnitude of a vector without NaN component is a float that is
    no NaN and has a clear sign bit. *)
Lemma magnitude_returns (v : vec) :
  is_nan (vec_x v) = false → is_nan (vec_y v) = false →
  ∃ m, Vector2.magnitude v = Ok m ∧ has_sign false m.
Proof.
  intros Hx Hy. rewrite magnitude_value.
  eexists. apply math_sqrt_nonneg.
  apply add_nonneg; apply mul_self_nonneg; assumption.
Qed.

Lemma mul_nan_l (f : float) : mul nan f = nan.
Proof. reflexivity. Qed.

Lemma add_nan_l (f : float) : add nan f = nan.
Proof. reflexivity. Qed.

Lemma add_nan_r (f : float) : add f nan = nan.
Proof. destruct f; reflexivity. Qed.

(** The magnitude never raises: the argument of the square root is a sum
    of squares. *)
Lemma magnitude_total (v : vec) : ∃ m, Vector2.magnitude v = Ok m.
Proof.
  destruct (is_nan (vec_x v)) eqn:Hx; [| destruct (is_nan (vec_y v)) eqn:Hy].
  - rewrite magnitude_value. destruct (vec_x v); try discriminate.
    rewrite mul_nan_l, add_nan_l. eexists. reflexivity.
  - rewrite magnitude_value. destruct (vec_y v); try discriminate.
    rewrite mul_nan_l, add_nan_r. eexists. reflexivity.
  - destruct (magnitude_returns v Hx Hy) as (m & Hm & _). eauto.
Qed.

(** C7, as the code has it: without NaN component the magnitude is a
    float [m] with [m >= 0]; with one it is NaN, and [NaN >= 0] is false. *)
Theorem magnitude_nonneg_spec (v : vec) :
  (is_nan (vec_x v) = false → is_nan (vec_y v) = false →
   Vector2.magnitude_nonneg v = Ok true) ∧
  (is_nan (vec_x v) || is_nan (vec_y v) = true →
   Vector2.magnitude v = Ok nan ∧ Vector2.magnitude_nonneg v = Ok false).
Proof.
  split.
  - intros Hx Hy. destruct (magnitude_returns v Hx Hy) as (m & Hm & Hs).
    unfold Vector2.magnitude_nonneg. rewrite Hm. simpl.
    rewrite (leb_zero_nonneg m Hs). reflexivity.
  - intros Hn. unfold Vector2.magnitude_nonneg. rewrite magnitude_value.
    apply orb_true_iff in Hn as [Hn | Hn].
    + destruct (vec_x v); try discriminate.
      rewrite mul_nan_l, add_nan_l. split; reflexivity.
    + destruct (vec_y v); try discriminate.
      rewrite mul_nan_l, add_nan_r. split; reflexivity.
Qed.

Lemma magnitude_nonneg_spec_witness :
  Vector2.magnitude_nonneg (Vec inf (neg three)) = Ok true ∧
  Vector2.magnitude_nonneg (Vec three nan) = Ok false.
Proof.
  split.
  - apply (magnitude_nonneg_spec (Vec inf (neg three))); reflexivity.
  - apply (magnitude_nonneg_spec (Vec three nan)); reflexivity.
Defined.

(** C7 fails as stated: the magnitude of a vector with a NaN component is
    not [>= 0]. *)
Lemma magnitude_nan_not_nonneg :
  ¬ ∃ m, Vector2.magnitude (Vec nan zero) = Ok m ∧ leb zero m = true.
Proof.
  intros (m & Hm & Hle). vm_compute in Hm. injection Hm as <-.
  discriminate Hle.
Qed.

(** ** Doubling a vector *)

Lemma double_agrees_value (a : vec) :
  Vector2.double_agrees a
  = Ok (eqb (mul (vec_x a) two) (add (vec_x a) (vec_x a))
        && eqb (mul (vec_y a) two) (add (vec_y a) (vec_y a))).
Proof.
  unfold Vector2.double_agrees, Vector2.__mul__, Vector2.__add__,
    Vector2.__eq__, Vector2.x, Vector2.y; simpl.
  destruct (eqb (mul (vec_x a) two) _); reflexivity.
Qed.

(** C6, as the code has it: [a * 2.0 == a + a] is true for every vector
    without NaN component, and false for every vector with one. *)
Theorem mul_two_eq_add_self (a : vec) :
  valid (vec_x a) = true → valid (vec_y a) = true →
  (is_nan (vec_x a) = false → is_nan (vec_y a) = false →
   Vector2.double_agrees a = Ok true) ∧
  (is_nan (vec_x a) || is_nan (vec_y a) = true →
   Vector2.double_agrees a = Ok false).
Proof.
  intros Vx Vy. rewrite double_agrees_value.
  rewrite (mul_two_add_self _ Vx), (mul_two_add_self _ Vy). split.
  - intros Hx Hy.
    destruct (add_self_sign _ Hx) as [sx Hsx].
    destruct (add_self_sign _ Hy) as [sy Hsy].
    rewrite (eqb_refl _ _ Hsx), (eqb_refl _ _ Hsy). reflexivity.
  - intros Hn. f_equal. apply orb_true_iff in Hn as [Hn | Hn].
    + destruct (vec_x a); try discriminate. reflexivity.
    + destruct (vec_y a); try discriminate. apply andb_false_r.
Qed.

Lemma mul_two_eq_add_self_witness :
  Vector2.double_agrees (Vec three (neg tiny)) = Ok true ∧
  Vector2.double_agrees (Vec nan zero) = Ok false.
Proof.
  split.
  - apply (mul_two_eq_add_self (Vec three (neg tiny))); reflexivity.
  - apply (mul_two_eq_add_self (Vec nan zero)); reflexivity.
Defined.

(** C6 fails as stated: a vector with a NaN component. *)
Lemma double_nan_differs :
  Vector2.double_agrees (Vec nan zero) ≠ Ok true.
Proof. vm_compute. discriminate. Qed.

(** ** Digits and shifts *)

Lemma digits2_pos_bounds (p : positive) :
  2 ^ (Z.pos (digits2_pos p) - 1) ≤ Z.pos p < 2 ^ Z.pos (digits2_pos p).
Proof.
  induction p as [p IH | p IH |]; cbn [digits2_pos].
  - rewrite Pos2Z.inj_succ.
    replace (Z.succ (Z.pos (digits2_pos p)) - 1)
      with (Z.succ (Z.pos (digits2_pos p) - 1)) by lia.
    rewrite !Z.pow_succ_r by lia. lia.
  - rewrite Pos2Z.inj_succ.
    replace (Z.succ (Z.pos (digits2_pos p)) - 1)
      with (Z.succ (Z.pos (digits2_pos p) - 1)) by lia.
    rewrite !Z.pow_succ_r by lia. lia.
  - simpl. lia.
Qed.

Lemma Zdigits2_bounds (m : Z) :
  0 < m → 2 ^ (Zdigits2 m - 1) ≤ m < 2 ^ Zdigits2 m.
Proof.
  destruct m as [|p|p]; try lia. intros _. apply digits2_pos_bounds.
Qed.

Lemma Zdigits2_nonneg (m : Z) : 0 ≤ Zdigits2 m.
Proof. destruct m; simpl; lia. Qed.

Lemma Zdigits2_pos (m : Z) : 0 < m → 0 < Zdigits2 m.
Proof. destruct m; simpl; lia. Qed.

(** The digit count is the least [d] with [m < 2 ^ d]. *)
Lemma Zdigits2_le (m d : Z) : 0 ≤ d → 0 ≤ m < 2 ^ d → Zdigits2 m ≤ d.
Proof.
  intros Hd [Hm Hlt].
  destruct (Z.eq_dec m 0) as [-> | Hne]; [simpl; lia |].
  destruct (Zdigits2_bounds m ltac:(lia)) as [Hlo _].
  destruct (Z.le_gt_cases (Zdigits2 m) d) as [|Hgt]; [assumption |].
  assert (2 ^ d ≤ 2 ^ (Zdigits2 m - 1)) by (apply Z.pow_le_mono_r; lia).
  lia.
Qed.

Lemma shr_1_div2 (mrs : shr_record) :
  0 ≤ shr_m mrs → shr_m (shr_1 mrs) = shr_m mrs / 2.
Proof.
  destruct mrs as [m r s]. cbn [shr_m shr_1].
  destruct m as [|[p|p|]|p]; intros H; cbn [shr_m].
  - reflexivity.
  - apply (Z.div_unique_pos _ _ _ 1); lia.
  - apply (Z.div_unique_pos _ _ _ 0); lia.
  - reflexivity.
  - lia.
Qed.


Lemma iter_shr_1_div (p : positive) (mrs : shr_record) :
  0 ≤ shr_m mrs →
  shr_m (SpecFloat.iter_pos shr_1 p mrs) = shr_m mrs / 2 ^ Z.pos p.
Proof.
  revert mrs. induction p as [p IH | p IH |]; intros mrs Hm; simpl SpecFloat.iter_pos.
  - assert (H1 : 0 ≤ shr_m (shr_1 mrs)) by (apply shr_1_nonneg, Hm).
    assert (H2 : 0 ≤ shr_m (SpecFloat.iter_pos shr_1 p (shr_1 mrs))).
    { rewrite IH by exact H1. apply Z.div_pos; [exact H1 | apply Z.pow_pos_nonneg; lia]. }
    rewrite IH by exact H2. rewrite IH by exact H1. rewrite shr_1_div2 by exact Hm.
    rewrite !Z.div_div by (try apply Z.pow_pos_nonneg; lia).
    f_equal. change 2 with (2 ^ 1) at 1.
    rewrite <- !Z.pow_add_r by lia. f_equal. lia.
  - assert (H2 : 0 ≤ shr_m (SpecFloat.iter_pos shr_1 p mrs)).
    { rewrite IH by exact Hm. apply Z.div_pos; [exact Hm | apply Z.pow_pos_nonneg; lia]. }
    rewrite IH by exact H2. rewrite IH by exact Hm.
    rewrite !Z.div_div by (try apply Z.pow_pos_nonneg; lia).
    f_equal. rewrite <- Z.pow_add_r by lia. f_equal. lia.
  - rewrite shr_1_div2 by exact Hm. reflexivity.
Qed.

(** ** Powers of two as reals *)


Lemma pow2_pos (e : Z) : (0 < pow2 e)%R.
Proof. apply powerRZ_lt. lra. Qed.

Lemma pow2_add (a b : Z) : pow2 (a + b) = (pow2 a * pow2 b)%R.
Proof. apply powerRZ_add. lra. Qed.

Lemma pow2_0 : pow2 0 = 1%R.
Proof. reflexivity. Qed.

Lemma pow2_1 : pow2 1 = 2%R.
Proof. unfold pow2. simpl. lra. Qed.

Lemma pow2_succ (a : Z) : pow2 (a + 1) = (2 * pow2 a)%R.
Proof. rewrite pow2_add, pow2_1. lra. Qed.

Lemma pow2_sub (a b : Z) : pow2 (a - b) = (pow2 a / pow2 b)%R.
Proof.
  pose proof (pow2_pos b) as Hb.
  replace a with ((a - b) + b) at 2 by lia. rewrite pow2_add.
  field. lra.
Qed.

Lemma pow2_IZR (n : Z) : 0 ≤ n → pow2 n = IZR (2 ^ n).
Proof.
  intros Hn. unfold pow2.
  rewrite <- (Z2Nat.id n Hn) at 1. rewrite <- pow_powerRZ.
  rewrite pow_IZR. rewrite Z2Nat.id by exact Hn. reflexivity.
Qed.

Lemma pow2_le (a b : Z) : a ≤ b → (pow2 a <= pow2 b)%R.
Proof.
  intros H. replace b with (a + (b - a)) by lia. rewrite pow2_add.
  pose proof (pow2_pos a).
  assert (1 <= pow2 (b - a))%R.
  { rewrite pow2_IZR by lia. apply IZR_le.
    pose proof (Z.pow_pos_nonneg 2 (b - a)). lia. }
  nra.
Qed.

Lemma pow2_lt (a b : Z) : a < b → (pow2 a < pow2 b)%R.
Proof.
  intros H. replace b with (a + 1 + (b - a - 1)) by lia.
  rewrite pow2_add, pow2_succ.
  pose proof (pow2_pos a).
  assert (1 <= pow2 (b - a - 1))%R.
  { rewrite pow2_IZR by lia. apply IZR_le.
    pose proof (Z.pow_pos_nonneg 2 (b - a - 1)). lia. }
  nra.
Qed.

Lemma pow2_lt_inv (a b : Z) : (pow2 a < pow2 b)%R → a < b.
Proof.
  intros H. destruct (Z.lt_ge_cases a b) as [|Hge]; [assumption |].
  pose proof (pow2_le b a Hge). lra.
Qed.

(** ** Canonical exponents *)

Lemma fexp_ge_emin (z : Z) : -1074 ≤ fexp prec emax z.
Proof. unfold fexp, SpecFloat.emin, prec, emax. lia. Qed.

Lemma fexp_mono (a b : Z) : a ≤ b → fexp prec emax a ≤ fexp prec emax b.
Proof. unfold fexp, SpecFloat.emin, prec, emax. lia. Qed.

Lemma fexp_succ (a : Z) : fexp prec emax (a + 1) ≤ fexp prec emax a + 1.
Proof. unfold fexp, SpecFloat.emin, prec, emax. lia. Qed.

Lemma fexp_cases (a : Z) :
  (fexp prec emax a = -1074 ∧ a ≤ -1021) ∨
  (fexp prec emax a = a - 53 ∧ -1021 < a).
Proof. unfold fexp, SpecFloat.emin, prec, emax. lia. Qed.

Lemma Zdigits2_unique (m d : Z) :
  2 ^ (d - 1) ≤ m < 2 ^ d → 0 < m → Zdigits2 m = d.
Proof.
  intros [Hlo Hhi] Hm.
  destruct (Zdigits2_bounds m Hm) as [Hlo' Hhi'].
  pose proof (Zdigits2_pos m Hm) as Hd'.
  assert (0 < d).
  { destruct (Z.lt_ge_cases 0 d) as [|Hd]; [assumption |].
    destruct (Z.eq_dec d 0) as [-> | Hn].
    - simpl in Hhi. lia.
    - rewrite (Z.pow_neg_r 2 d) in Hhi by lia. lia. }
  destruct (Z.lt_trichotomy (Zdigits2 m) d) as [Hlt | [Heq | Hgt]].
  - assert (2 ^ Zdigits2 m ≤ 2 ^ (d - 1)) by (apply Z.pow_le_mono_r; lia). lia.
  - exact Heq.
  - assert (2 ^ d ≤ 2 ^ (Zdigits2 m - 1)) by (apply Z.pow_le_mono_r; lia). lia.
Qed.

Lemma Zdigits2_succ (t : Z) :
  0 ≤ t →
  Zdigits2 (t + 1) = Zdigits2 t ∨
  (Zdigits2 (t + 1) = Zdigits2 t + 1 ∧ t + 1 = 2 ^ Zdigits2 t).
Proof.
  intros Ht. destruct (Z.eq_dec t 0) as [-> | Hne].
  - right. split; reflexivity.
  - destruct (Zdigits2_bounds t ltac:(lia)) as [Hlo Hhi].
    pose proof (Zdigits2_pos t ltac:(lia)) as Hd.
    destruct (Z.eq_dec (t + 1) (2 ^ Zdigits2 t)) as [Heq | Hneq].
    + right. split; [| exact Heq].
      apply Zdigits2_unique; [| lia].
      replace (Zdigits2 t + 1 - 1) with (Zdigits2 t) by lia.
      rewrite Z.pow_add_r by lia. lia.
    + left. apply Zdigits2_unique; lia.
Qed.

Lemma Zdigits2_div (m k : Z) :
  0 ≤ k → 0 < m / 2 ^ k → Zdigits2 (m / 2 ^ k) = Zdigits2 m - k.
Proof.
  intros Hk Ht.
  assert (Hp : 0 < 2 ^ k) by (apply Z.pow_pos_nonneg; lia).
  assert (Hm : 0 < m).
  { destruct (Z.lt_ge_cases 0 m) as [|Hle]; [assumption |].
    assert (m / 2 ^ k ≤ 0) by (apply Z.div_le_upper_bound; lia). lia. }
  destruct (Zdigits2_bounds m Hm) as [Hlo Hhi].
  assert (Hmk : 2 ^ k ≤ m).
  { destruct (Z.lt_ge_cases m (2 ^ k)) as [Hlt|]; [| assumption].
    rewrite Z.div_small in Ht by lia. lia. }
  assert (Hdk : k < Zdigits2 m).
  { destruct (Z.lt_ge_cases k (Zdigits2 m)) as [|Hge]; [assumption |].
    assert (2 ^ Zdigits2 m ≤ 2 ^ k) by (apply Z.pow_le_mono_r; lia). lia. }
  apply Zdigits2_unique; [| exact Ht]. split.
  - apply Z.div_le_lower_bound; [exact Hp |].
    rewrite <- Z.pow_add_r by lia.
    replace (k + (Zdigits2 m - k - 1)) with (Zdigits2 m - 1) by lia. exact Hlo.
  - apply Z.div_lt_upper_bound; [exact Hp |].
    rewrite <- Z.pow_add_r by lia.
    replace (k + (Zdigits2 m - k)) with (Zdigits2 m) by lia. exact Hhi.
Qed.

(** ** The shape of a rounded result *)


Lemma shr_record_of_loc_m (m : Z) (l : location) :
  shr_m (shr_record_of_loc m l) = m.
Proof. destruct l as [|[]]; reflexivity. Qed.

Lemma shr_fexp_first (m e : Z) (l : location) :
  0 ≤ m → e ≤ fexp prec emax (Zdigits2 m + e) →
  shr_m (shr_fexp prec emax m e l).1
  = m / 2 ^ (fexp prec emax (Zdigits2 m + e) - e) ∧
  (shr_fexp prec emax m e l).2 = fexp prec emax (Zdigits2 m + e).
Proof.
  intros Hm He. unfold shr_fexp, shr.
  destruct (fexp prec emax (Zdigits2 m + e) - e) as [|p|p] eqn:Hk; cbn [fst snd].
  - rewrite shr_record_of_loc_m, Z.pow_0_r, Z.div_1_r. split; lia.
  - rewrite iter_shr_1_div by (rewrite shr_record_of_loc_m; exact Hm).
    rewrite shr_record_of_loc_m. split; lia.
  - lia.
Qed.

Lemma Zdigits2_pow2 (d : Z) : 0 ≤ d → Zdigits2 (2 ^ d) = d + 1.
Proof.
  intros Hd. apply Zdigits2_unique.
  - replace (d + 1 - 1) with d by lia. rewrite Z.pow_add_r by lia. 
    pose proof (Z.pow_pos_nonneg 2 d). lia.
  - apply Z.pow_pos_nonneg; lia.
Qed.

Lemma shr_fexp_second (t t' E : Z) :
  0 ≤ t → fexp prec emax (Zdigits2 t + E) = E →
  t' = t ∨ t' = t + 1 →
  0 ≤ shr_m (shr_fexp prec emax t' E loc_Exact).1 ∧
  E ≤ (shr_fexp prec emax t' E loc_Exact).2 ≤ E + 1 ∧
  fexp prec emax (Zdigits2 (shr_m (shr_fexp prec emax t' E loc_Exact).1)
                  + (shr_fexp prec emax t' E loc_Exact).2)
  = (shr_fexp prec emax t' E loc_Exact).2 ∧
  (IZR (shr_m (shr_fexp prec emax t' E loc_Exact).1)
   * pow2 (shr_fexp prec emax t' E loc_Exact).2
   = IZR t' * pow2 E)%R.
Proof.
  intros Ht Hfit Ht'.
  assert (Hk : fexp prec emax (Zdigits2 t' + E) - E = 0 ∨
               (fexp prec emax (Zdigits2 t' + E) - E = 1 ∧
                ∃ d, 0 < d ∧ t' = 2 ^ d)).
  { destruct Ht' as [-> | ->]; [left; lia |].
    destruct (Zdigits2_succ t Ht) as [-> | [Hd Hpow]]; [left; lia |].
    rewrite Hd.
    pose proof (fexp_succ (Zdigits2 t + E)) as Hs.
    pose proof (fexp_mono (Zdigits2 t + E) (Zdigits2 t + E + 1) ltac:(lia)).
    replace (Zdigits2 t + 1 + E) with (Zdigits2 t + E + 1) by lia.
    destruct (Z.eq_dec t 0) as [-> | Hne].
    - left. simpl Zdigits2 in *.
      destruct (fexp_cases (0 + E + 1)) as [[HE1 _] | [HE1 _]];
        destruct (fexp_cases (0 + E)) as [[HE0 _] | [HE0 _]]; lia.
    - destruct (Z.eq_dec (fexp prec emax (Zdigits2 t + E + 1) - E) 0);
        [left; assumption | right].
      split; [lia |]. exists (Zdigits2 t). split; [| exact Hpow].
      apply Zdigits2_pos. lia. }
  unfold shr_fexp, shr. cbn [shr_record_of_loc].
  destruct Hk as [Hk | [Hk (d & Hd & Hpow)]].
  - rewrite Hk. cbn [fst snd shr_m].
    split; [lia | split; [lia | split; [lia | reflexivity]]].
  - rewrite Hk. cbn [fst snd SpecFloat.iter_pos].
    rewrite shr_1_div2 by (cbn [shr_m]; lia). cbn [shr_m].
    assert (Hhalf : t' = 2 * 2 ^ (d - 1)).
    { rewrite Hpow. replace d with (1 + (d - 1)) at 1 by lia.
      rewrite Z.pow_add_r by lia. reflexivity. }
    assert (Hq : t' / 2 = 2 ^ (d - 1)).
    { rewrite Hhalf. rewrite Z.mul_comm, Z.div_mul by lia. reflexivity. }
    rewrite Hq. split; [apply Z.pow_nonneg; lia | split; [lia | split]].
    + rewrite Zdigits2_pow2 by lia.
      rewrite Hpow, Zdigits2_pow2 in Hk by lia.
      replace (d - 1 + 1 + (E + 1)) with (d + 1 + E) by lia. lia.
    + rewrite pow2_succ, Hhalf, mult_IZR. lra.
Qed.

Lemma round_nearest_even_cases (t : Z) (l : location) :
  round_nearest_even t l = t ∨ round_nearest_even t l = t + 1.
Proof.
  destruct l as [|[]]; simpl; auto. destruct (Z.even t); auto.
Qed.

(** After rounding, the mantissa [m] at exponent [e] has become [t] or
    [t + 1] units of the canonical exponent, with [t] the shifted [m]. *)
Lemma binary_round_aux_shape (s : bool) (m e : Z) (l : location) :
  0 ≤ m → e ≤ fexp prec emax (Zdigits2 m + e) →
  ∃ t' m'' e'',
    (t' = m / 2 ^ (fexp prec emax (Zdigits2 m + e) - e) ∨
     t' = m / 2 ^ (fexp prec emax (Zdigits2 m + e) - e) + 1) ∧
    0 ≤ m'' ∧
    fexp prec emax (Zdigits2 m + e) ≤ e''
      ≤ fexp prec emax (Zdigits2 m + e) + 1 ∧
    fexp prec emax (Zdigits2 m'' + e'') = e'' ∧
    (IZR m'' * pow2 e''
     = IZR t' * pow2 (fexp prec emax (Zdigits2 m + e)))%R ∧
    binary_round_aux prec emax s m e l = build s m'' e''.
Proof.
  intros Hm He.
  set (E := fexp prec emax (Zdigits2 m + e)) in *.
  set (t := m / 2 ^ (E - e)).
  destruct (shr_fexp_first m e l Hm He) as [H1m H1e]. fold E in H1m, H1e.
  unfold binary_round_aux.
  destruct (shr_fexp prec emax m e l) as [mrs' e'].
  cbn [fst snd] in H1m, H1e. subst e'.
  set (t' := round_nearest_even (shr_m mrs') (loc_of_shr_record mrs')).
  assert (Ht : 0 ≤ t).
  { apply Z.div_pos; [exact Hm | apply Z.pow_pos_nonneg; lia]. }
  assert (Ht' : t' = t ∨ t' = t + 1).
  { unfold t'. rewrite H1m. apply round_nearest_even_cases. }
  assert (Hfit : fexp prec emax (Zdigits2 t + E) = E).
  { destruct (Z.eq_dec t 0) as [Hz | Hnz].
    - rewrite Hz. simpl Zdigits2.
      assert (Hsmall : Zdigits2 m + e ≤ E).
      { destruct (Z.eq_dec m 0) as [-> | Hm0]; [simpl; lia |].
        destruct (Zdigits2_bounds m ltac:(lia)) as [Hlo _].
        destruct (Z.le_gt_cases (Zdigits2 m) (E - e)) as [|Hgt]; [lia |].
        assert (2 ^ (E - e) ≤ 2 ^ (Zdigits2 m - 1))
          by (apply Z.pow_le_mono_r; lia).
        assert (1 ≤ t); [| lia].
        unfold t. apply Z.div_le_lower_bound;
          [apply Z.pow_pos_nonneg; lia | lia]. }
      unfold E in Hsmall |- *.
      destruct (fexp_cases (Zdigits2 m + e)) as [[HE _] | [HE _]];
        rewrite HE in *; [| lia].
      reflexivity.
    - unfold t. rewrite Zdigits2_div by (fold t; lia).
      replace (Zdigits2 m - (E - e) + E) with (Zdigits2 m + e) by lia.
      reflexivity. }
  destruct (shr_fexp_second t t' E Ht Hfit Ht')
    as (Hpos & Hrange & Hcanon & Hval).
  destruct (shr_fexp prec emax t' E loc_Exact) as [mrs'' e''].
  cbn [fst snd] in Hpos, Hrange, Hcanon, Hval.
  exists t', (shr_m mrs''), e''.
  split; [exact Ht' | split; [exact Hpos | split; [exact Hrange |]]].
  split; [exact Hcanon | split; [exact Hval | reflexivity]].
Qed.

(** ** Magnitudes of floats *)


Lemma mag_finite (s : bool) (m : positive) (e : Z) :
  mag (S754_finite s m e) = (IZR (Z.pos m) * pow2 e)%R.
Proof.
  unfold mag, B2R. pose proof (pow2_pos e) as He.
  assert (0 < IZR (Z.pos m))%R by (apply IZR_lt; lia).
  destruct s.
  - rewrite Rabs_left by nra. lra.
  - rewrite Rabs_right by nra. lra.
Qed.

Lemma mag_zero (s : bool) : mag (S754_zero s) = 0%R.
Proof. unfold mag, B2R. apply Rabs_R0. Qed.

Lemma mag_nonneg (f : float) : (0 <= mag f)%R.
Proof. apply Rabs_pos. Qed.

Lemma B2R_sign (s : bool) (f : float) :
  has_sign s f → B2R f = ((if s then -1 else 1) * mag f)%R.
Proof.
  destruct f as [s'|s'| |s' m e]; simpl; intros H; try contradiction; subst.
  - rewrite mag_zero. lra.
  - unfold mag, B2R. rewrite Rabs_R0. lra.
  - rewrite mag_finite. unfold B2R. lra.
Qed.

Lemma build_finite (s : bool) (m e : Z) :
  0 ≤ m → e ≤ 971 → fexp prec emax (Zdigits2 m + e) = e →
  is_finite (build s m e) = true ∧ has_sign s (build s m e) ∧
  valid (build s m e) = true ∧
  mag (build s m e) = (IZR m * pow2 e)%R.
Proof.
  intros Hm He Hc. unfold build. destruct m as [|p|p]; [| | lia].
  - rewrite mag_zero.
    split; [reflexivity | split; [reflexivity | split; [reflexivity | lra]]].
  - destruct (Z.leb_spec e (emax - prec)) as [Hle | Hgt];
      [| unfold emax, prec in Hgt; lia].
    rewrite mag_finite.
    split; [reflexivity | split; [reflexivity | split; [| reflexivity]]].
    unfold valid, valid_binary, SpecFloat.bounded, canonical_mantissa.
    simpl Zdigits2 in Hc. rewrite Hc, Z.eqb_refl.
    apply Z.leb_le in Hle. rewrite Hle. reflexivity.
Qed.

(** Faithful rounding: the rounded magnitude is within one unit of the
    canonical exponent of any real between the two neighbours of the
    unrounded mantissa; the unit is at most [eps] times the real, or [eta]. *)
Lemma binary_round_aux_error (s : bool) (m e : Z) (l : location) (x : R) :
  0 ≤ m → e ≤ fexp prec emax (Zdigits2 m + e) →
  (IZR m * pow2 e <= x <= IZR (m + 1) * pow2 e)%R →
  (x < pow2 1023)%R →
  is_finite (binary_round_aux prec emax s m e l) = true ∧
  has_sign s (binary_round_aux prec emax s m e l) ∧
  valid (binary_round_aux prec emax s m e l) = true ∧
  (Rabs (mag (binary_round_aux prec emax s m e l) - x) <= eps * x + eta)%R.
Proof.
  intros Hm He [Hlo Hhi] Hx.
  destruct (binary_round_aux_shape s m e l Hm He)
    as (t' & m'' & e'' & Ht' & Hm'' & He'' & Hcanon & Hval & ->).
  set (E := fexp prec emax (Zdigits2 m + e)) in *.
  set (k := E - e) in *.
  set (t := m / 2 ^ k) in *.
  assert (Hk : 0 ≤ k) by (unfold k; lia).
  assert (Hpk : 0 < 2 ^ k) by (apply Z.pow_pos_nonneg; lia).
  assert (Ht : 0 ≤ t) by (apply Z.div_pos; lia).
  assert (HE : pow2 E = (IZR (2 ^ k) * pow2 e)%R).
  { replace E with (k + e) by (unfold k; lia).
    rewrite pow2_add, pow2_IZR by exact Hk. reflexivity. }
  pose proof (pow2_pos e) as Hpe. pose proof (pow2_pos E) as HpE.
  assert (HT : (IZR t * pow2 E <= IZR m * pow2 e)%R).
  { rewrite HE, <- Rmult_assoc, <- mult_IZR.
    apply Rmult_le_compat_r; [lra |]. apply IZR_le.
    unfold t. rewrite Z.mul_comm. apply Z.mul_div_le. exact Hpk. }
  assert (HT' : (IZR (m + 1) * pow2 e <= IZR (t + 1) * pow2 E)%R).
  { rewrite HE, <- Rmult_assoc, <- mult_IZR.
    apply Rmult_le_compat_r; [lra |]. apply IZR_le.
    pose proof (Z.mul_succ_div_gt m (2 ^ k) Hpk) as Hgt.
    fold t in Hgt. lia. }
  rewrite !plus_IZR in HT'. rewrite plus_IZR in Hhi.
  assert (Hx0 : (0 <= x)%R).
  { assert (0 <= IZR m)%R by (apply IZR_le; lia). nra. }
  assert (Hunit : (pow2 E <= eps * x + eta)%R ∧ E ≤ 970).
  { destruct (fexp_cases (Zdigits2 m + e)) as [[HEq _] | [HEq Hn]];
      fold E in HEq.
    - split; [| lia]. rewrite HEq. fold eta.
      assert (0 <= eps * x)%R by (unfold eps; pose proof (pow2_pos (-52)); nra).
      lra.
    - assert (Hd : 53 ≤ Zdigits2 m) by lia.
      assert (Hmpos : 0 < m).
      { destruct m as [|p|p]; [simpl in Hd; lia | lia | lia]. }
      destruct (Zdigits2_bounds m Hmpos) as [Hmlo _].
      assert (Ht52 : 2 ^ 52 ≤ t).
      { unfold t. apply Z.div_le_lower_bound; [exact Hpk |].
        rewrite <- Z.pow_add_r by lia.
        replace (k + 52) with (Zdigits2 m - 1) by (unfold k; lia).
        exact Hmlo. }
      assert (HtR : (pow2 52 <= IZR t)%R).
      { rewrite pow2_IZR by lia. apply IZR_le. exact Ht52. }
      assert (Hu : (eps * pow2 52 = 1)%R).
      { unfold eps. rewrite <- pow2_add. reflexivity. }
      split.
      + assert (pow2 E <= eps * (IZR t * pow2 E))%R.
        { replace (eps * (IZR t * pow2 E))%R
            with ((eps * IZR t) * pow2 E)%R by ring.
          assert (1 <= eps * IZR t)%R.
          { rewrite <- Hu. apply Rmult_le_compat_l; [| exact HtR].
            unfold eps. pose proof (pow2_pos (-52)). lra. }
          nra. }
        assert (0 <= eps)%R by (unfold eps; pose proof (pow2_pos (-52)); lra).
        assert (0 < eta)%R by apply pow2_pos.
        nra.
      + assert (pow2 (52 + E) < pow2 1023)%R.
        { rewrite pow2_add. nra. }
        apply pow2_lt_inv in H. lia. }
  destruct Hunit as [Hunit HE970].
  destruct (build_finite s m'' e'' Hm'' ltac:(lia) Hcanon)
    as (Hfin & Hsign & Hvalid & Hmag).
  split; [exact Hfin | split; [exact Hsign | split; [exact Hvalid |]]].
  rewrite Hmag, Hval.
  apply Rabs_le. destruct Ht' as [-> | ->]; [| rewrite plus_IZR]; lra.
Qed.

(** ** Rounding errors of the float operations *)

Lemma Zdigits2_ge (m d : Z) : 0 < m → 2 ^ (d - 1) ≤ m → d ≤ Zdigits2 m.
Proof.
  intros Hm Hlo. destruct (Zdigits2_bounds m Hm) as [_ Hhi].
  pose proof (Zdigits2_pos m Hm).
  destruct (Z.le_gt_cases d (Zdigits2 m)) as [|Hgt]; [assumption |].
  assert (2 ^ Zdigits2 m ≤ 2 ^ (d - 1)) by (apply Z.pow_le_mono_r; lia).
  lia.
Qed.

(** A valid finite float has at most 53 digits, and exactly 53 unless its
    exponent is the least one. *)
Lemma valid_finite (s : bool) (m : positive) (e : Z) :
  valid (S754_finite s m e) = true →
  (Z.pos (digits2_pos m) = 53 ∧ -1074 ≤ e ≤ 971) ∨
  (Z.pos (digits2_pos m) < 53 ∧ e = -1074).
Proof. apply bounded_cases. Qed.

Lemma mul_error (a b : float) :
  valid a = true → valid b = true →
  is_finite a = true → is_finite b = true →
  (mag a * mag b < pow2 1023)%R →
  is_finite (mul a b) = true ∧ valid (mul a b) = true ∧
  (Rabs (mag (mul a b) - mag a * mag b) <= eps * (mag a * mag b) + eta)%R.
Proof.
  intros Va Vb Fa Fb Hx.
  assert (Heta : (0 < eta)%R) by apply pow2_pos.
  destruct a as [sa|sa| |sa ma ea]; try discriminate;
    destruct b as [sb|sb| |sb mb eb]; try discriminate;
    try (cbn [mul SFmul]; rewrite ?mag_zero;
         split; [reflexivity | split; [reflexivity |]];
         rewrite ?Rmult_0_l, ?Rmult_0_r, Rminus_diag, Rabs_R0; lra).
  unfold mul, SFmul.
  rewrite !mag_finite in Hx |- *.
  assert (Hval : (IZR (Z.pos ma) * pow2 ea * (IZR (Z.pos mb) * pow2 eb)
                  = IZR (Z.pos (ma * mb)) * pow2 (ea + eb))%R).
  { rewrite Pos2Z.inj_mul, mult_IZR, pow2_add. ring. }
  rewrite Hval in Hx |- *.
  destruct (binary_round_aux_error (xorb sa sb) (Z.pos (ma * mb)) (ea + eb)
              loc_Exact (IZR (Z.pos (ma * mb)) * pow2 (ea + eb)))
    as (Hfin & _ & Hvalid & Herr).
  - lia.
  - destruct (valid_finite _ _ _ Va) as [[Hda Hea] | [Hda Hea]];
      destruct (valid_finite _ _ _ Vb) as [[Hdb Heb] | [Hdb Heb]].
    all: destruct (digits2_pos_bounds ma) as [Hla _];
      destruct (digits2_pos_bounds mb) as [Hlb _].
    all: assert (Hd : Z.pos (digits2_pos ma) + Z.pos (digits2_pos mb) - 1
                      ≤ Zdigits2 (Z.pos (ma * mb)));
      [ apply Zdigits2_ge; [lia |];
        replace (Z.pos (digits2_pos ma) + Z.pos (digits2_pos mb) - 1 - 1)
          with ((Z.pos (digits2_pos ma) - 1) + (Z.pos (digits2_pos mb) - 1))
          by lia;
        rewrite Z.pow_add_r by lia; rewrite Pos2Z.inj_mul;
        apply Z.mul_le_mono_nonneg; try lia; apply Z.pow_nonneg; lia
      | ].
    all: pose proof (fexp_mono
           (Z.pos (digits2_pos ma) + Z.pos (digits2_pos mb) - 1 + (ea + eb))
           (Zdigits2 (Z.pos (ma * mb)) + (ea + eb)) ltac:(lia)) as Hmono.
    all: revert Hmono; unfold fexp, SpecFloat.emin, prec, emax; lia.
  - pose proof (pow2_pos (ea + eb)). rewrite plus_IZR. split; nra.
  - exact Hx.
  - split; [exact Hfin | split; [exact Hvalid | exact Herr]].
Qed.

Lemma iter_xO_value (d m : positive) :
  Z.pos (Pos.iter xO m d) = Z.pos m * 2 ^ Z.pos d.
Proof.
  induction d as [|d IH] using Pos.peano_ind.
  - simpl. lia.
  - rewrite Pos.iter_succ, Pos2Z.inj_xO, IH, Pos2Z.inj_succ.
    rewrite Z.pow_succ_r by lia. lia.
Qed.

(** [shl_align] keeps the value and lowers the exponent to the target
    when it is above it. *)
Lemma shl_align_spec (m : positive) (e e' : Z) :
  (shl_align m e e').2 = Z.min e e' ∧
  Z.pos (shl_align m e e').1 = Z.pos m * 2 ^ (e - Z.min e e') ∧
  Z.pos (digits2_pos (shl_align m e e').1)
  = Z.pos (digits2_pos m) + (e - Z.min e e').
Proof.
  unfold shl_align. destruct (e' - e) as [|p|p] eqn:Hd; cbn [fst snd].
  - replace (Z.min e e') with e by lia.
    rewrite Z.sub_diag, Z.pow_0_r. lia.
  - replace (Z.min e e') with e by lia.
    rewrite Z.sub_diag, Z.pow_0_r. lia.
  - replace (Z.min e e') with e' by lia.
    replace (e - e') with (Z.pos p) by lia.
    rewrite iter_xO_value, digits2_iter_xO. lia.
Qed.

Lemma shl_align_value (m : positive) (e e' : Z) :
  (IZR (Z.pos (shl_align m e e').1) * pow2 (shl_align m e e').2
   = IZR (Z.pos m) * pow2 e)%R.
Proof.
  destruct (shl_align_spec m e e') as (-> & -> & _).
  rewrite mult_IZR, <- pow2_IZR by lia.
  rewrite Rmult_assoc, <- pow2_add. f_equal. f_equal. lia.
Qed.

Lemma binary_round_error (s : bool) (m : positive) (e : Z) :
  (IZR (Z.pos m) * pow2 e < pow2 1023)%R →
  is_finite (binary_round prec emax s m e) = true ∧
  has_sign s (binary_round prec emax s m e) ∧
  valid (binary_round prec emax s m e) = true ∧
  (Rabs (mag (binary_round prec emax s m e) - IZR (Z.pos m) * pow2 e)
   <= eps * (IZR (Z.pos m) * pow2 e) + eta)%R.
Proof.
  intros Hx. unfold binary_round.
  pose proof (shl_align_value m e (fexp prec emax (Z.pos (digits2_pos m) + e)))
    as Hval.
  destruct (shl_align_spec m e (fexp prec emax (Z.pos (digits2_pos m) + e)))
    as (He' & _ & Hd').
  destruct (shl_align m e (fexp prec emax (Z.pos (digits2_pos m) + e)))
    as [mz ez]. cbn [fst snd] in Hval, He', Hd'.
  rewrite <- Hval in Hx |- *.
  apply binary_round_aux_error.
  - lia.
  - simpl Zdigits2. rewrite Hd', He'.
    replace (Z.pos (digits2_pos m)
             + (e - Z.min e (fexp prec emax (Z.pos (digits2_pos m) + e)))
             + Z.min e (fexp prec emax (Z.pos (digits2_pos m) + e)))
      with (Z.pos (digits2_pos m) + e) by lia.
    lia.
  - pose proof (pow2_pos ez). rewrite plus_IZR. split; nra.
  - exact Hx.
Qed.

Lemma add_error (a b : float) :
  has_sign false a → has_sign false b →
  is_finite a = true → is_finite b = true →
  valid a = true → valid b = true →
  (mag a + mag b < pow2 1023)%R →
  is_finite (add a b) = true ∧ has_sign false (add a b) ∧
  valid (add a b) = true ∧
  (Rabs (mag (add a b) - (mag a + mag b)) <= eps * (mag a + mag b) + eta)%R.
Proof.
  intros Sa Sb Fa Fb Va Vb Hx.
  assert (Heta : (0 < eta)%R) by apply pow2_pos.
  assert (Hu : (0 < eps)%R) by apply pow2_pos.
  destruct a as [sa|sa| |sa ma ea]; try discriminate;
    destruct b as [sb|sb| |sb mb eb]; try discriminate;
    simpl in Sa, Sb; subst.
  - cbn [add SFadd]. rewrite !mag_zero.
    split; [reflexivity | split; [reflexivity | split; [reflexivity |]]].
    rewrite Rplus_0_l, Rminus_diag, Rabs_R0. lra.
  - cbn [add SFadd]. rewrite mag_zero, Rplus_0_l.
    split; [reflexivity | split; [reflexivity | split; [exact Vb |]]].
    rewrite Rminus_diag, Rabs_R0. pose proof (mag_nonneg (S754_finite false mb eb)).
    nra.
  - cbn [add SFadd]. rewrite mag_zero, Rplus_0_r.
    split; [reflexivity | split; [reflexivity | split; [exact Va |]]].
    rewrite Rminus_diag, Rabs_R0. pose proof (mag_nonneg (S754_finite false ma ea)).
    nra.
  - unfold add, SFadd. cbn [cond_Zopp].
    pose proof (shl_align_value ma ea (Z.min ea eb)) as Hva.
    pose proof (shl_align_value mb eb (Z.min ea eb)) as Hvb.
    destruct (shl_align_spec ma ea (Z.min ea eb)) as (Hea & _ & _).
    destruct (shl_align_spec mb eb (Z.min ea eb)) as (Heb & _ & _).
    rewrite Hea in Hva. rewrite Heb in Hvb.
    replace (Z.min ea (Z.min ea eb)) with (Z.min ea eb) in Hva by lia.
    replace (Z.min eb (Z.min ea eb)) with (Z.min ea eb) in Hvb by lia.
    rewrite !mag_finite in Hx |- *. rewrite <- Hva, <- Hvb in Hx |- *.
    set (pa := (shl_align ma ea (Z.min ea eb)).1) in *.
    set (pb := (shl_align mb eb (Z.min ea eb)).1) in *.
    change (Z.pos pa + Z.pos pb) with (Z.pos (pa + pb)).
    cbn [binary_normalize].
    replace (IZR (Z.pos pa) * pow2 (Z.min ea eb)
             + IZR (Z.pos pb) * pow2 (Z.min ea eb))%R
      with (IZR (Z.pos (pa + pb)) * pow2 (Z.min ea eb))%R in Hx |- *
      by (rewrite Pos2Z.inj_add, plus_IZR; ring).
    apply binary_round_error. exact Hx.
Qed.

Lemma div2_add_even (a b : Z) : Z.div2 (a + 2 * b) = Z.div2 a + b.
Proof.
  rewrite !Z.div2_div. replace (a + 2 * b) with (a + b * 2) by lia.
  apply Z.div_add. lia.
Qed.

Lemma shift_mantissa (m s : Z) :
  0 ≤ s →
  match s with
  | Z.pos _ => Z.shiftl m s
  | 0 => m
  | Z.neg _ => 0
  end = m * 2 ^ s.
Proof.
  intros Hs. destruct s as [|p|p]; [simpl; lia | | lia].
  apply Z.shiftl_mul_pow2. lia.
Qed.

Lemma sqrt_error (a : float) :
  has_sign false a → is_finite a = true →
  (R_sqrt.sqrt (mag a) < pow2 1023)%R →
  is_finite (sqrt a) = true ∧ has_sign false (sqrt a) ∧
  valid (sqrt a) = true ∧
  (Rabs (mag (sqrt a) - R_sqrt.sqrt (mag a))
   <= eps * R_sqrt.sqrt (mag a) + eta)%R.
Proof.
  intros Sa Fa Hx.
  assert (Heta : (0 < eta)%R) by apply pow2_pos.
  destruct a as [sa|sa| |sa m e]; try discriminate; simpl in Sa; subst.
  - cbn [sqrt SFsqrt]. rewrite mag_zero, sqrt_0.
    split; [reflexivity | split; [reflexivity | split; [reflexivity |]]].
    rewrite Rminus_diag, Rabs_R0. lra.
  - unfold sqrt, SFsqrt, SFsqrt_core_binary.
    set (d := Zdigits2 (Z.pos m)).
    set (e' := Z.min (fexp prec emax (Z.div2 (d + e + 1))) (Z.div2 e)).
    set (s := e - 2 * e').
    assert (Hs : 0 ≤ s).
    { unfold s, e'. pose proof (Z.mul_div_le e 2 ltac:(lia)).
      rewrite Z.div2_div. lia. }
    rewrite (shift_mantissa (Z.pos m) s Hs).
    set (m' := Z.pos m * 2 ^ s).
    assert (Hps : 0 < 2 ^ s) by (apply Z.pow_pos_nonneg; lia).
    assert (Hm' : 0 < m') by (unfold m'; lia).
    pose proof (Z.sqrtrem_sqrt m') as Hq.
    pose proof (Z.sqrt_spec m' ltac:(lia)) as [Hqlo Hqhi].
    destruct (Z.sqrtrem m') as [q r]. cbn [fst] in Hq. subst q.
    set (q := Z.sqrt m') in *.
    assert (Hq0 : 0 ≤ q) by apply Z.sqrt_nonneg.
    (* digits of the root *)
    destruct (Zdigits2_bounds (Z.pos m) ltac:(lia)) as [Hmlo _]. fold d in Hmlo.
    assert (Hd : 0 < d) by (unfold d; simpl; lia).
    set (h := Z.div2 (d + s + 1)).
    assert (Hh : 2 * h ≤ d + s + 1 ∧ 1 ≤ h).
    { unfold h. rewrite Z.div2_div.
      pose proof (Z.mul_div_le (d + s + 1) 2 ltac:(lia)).
      assert (1 ≤ (d + s + 1) / 2) by (apply Z.div_le_lower_bound; lia). lia. }
    assert (Hqh : 2 ^ (h - 1) ≤ q).
    { unfold q. rewrite <- (Z.sqrt_square (2 ^ (h - 1)))
        by (apply Z.pow_nonneg; lia).
      apply Z.sqrt_le_mono. rewrite <- Z.pow_add_r by lia.
      transitivity (2 ^ (d - 1 + s)).
      - apply Z.pow_le_mono_r; lia.
      - rewrite Z.pow_add_r by lia. unfold m'.
        apply Z.mul_le_mono_nonneg_r; lia. }
    assert (Hqpos : 0 < q).
    { pose proof (Z.pow_pos_nonneg 2 (h - 1)). lia. }
    pose proof (Zdigits2_ge q h Hqpos Hqh) as Hdq.
    assert (Halign : e' ≤ fexp prec emax (Zdigits2 q + e')).
    { pose proof (fexp_mono (h + e') (Zdigits2 q + e') ltac:(lia)) as Hmono.
      assert (Hhe : h + e' = Z.div2 (d + e + 1)).
      { unfold h. rewrite <- div2_add_even. f_equal. unfold s. lia. }
      rewrite Hhe in Hmono. unfold e' at 1. lia. }
    (* the real square root *)
    rewrite mag_finite in Hx |- *.
    assert (Hval : (IZR (Z.pos m) * pow2 e
                    = IZR m' * (pow2 e' * pow2 e'))%R).
    { unfold m'. rewrite mult_IZR, <- pow2_IZR by exact Hs.
      rewrite <- pow2_add, Rmult_assoc, <- pow2_add.
      f_equal. f_equal. unfold s. lia. }
    pose proof (pow2_pos e') as Hpe'.
    assert (Hroot : (R_sqrt.sqrt (IZR (Z.pos m) * pow2 e)
                     = R_sqrt.sqrt (IZR m') * pow2 e')%R).
    { rewrite Hval, sqrt_mult_alt by (apply IZR_le; lia).
      rewrite sqrt_square by lra. reflexivity. }
    rewrite Hroot in Hx |- *.
    assert (Hrlo : (IZR q <= R_sqrt.sqrt (IZR m'))%R).
    { rewrite <- (sqrt_square (IZR q)) by (apply IZR_le; lia).
      apply sqrt_le_1_alt. rewrite <- mult_IZR. apply IZR_le. exact Hqlo. }
    assert (Hrhi : (R_sqrt.sqrt (IZR m') <= IZR (q + 1))%R).
    { rewrite <- (sqrt_square (IZR (q + 1))) by (apply IZR_le; lia).
      apply sqrt_le_1_alt. rewrite <- mult_IZR. apply IZR_le. lia. }
    apply binary_round_aux_error.
    + exact Hq0.
    + exact Halign.
    + split; apply Rmult_le_compat_r; lra.
    + exact Hx.
Qed.

Lemma div_error (a b : float) (sb : bool) (mb : positive) (eb : Z) :
  b = S754_finite sb mb eb → is_finite a = true →
  (mag a / mag b < pow2 1023)%R →
  is_finite (div a b) = true ∧ valid (div a b) = true ∧
  (Rabs (mag (div a b) - mag a / mag b) <= eps * (mag a / mag b) + eta)%R.
Proof.
  intros -> Fa Hx.
  assert (Heta : (0 < eta)%R) by apply pow2_pos.
  pose proof (pow2_pos eb) as Hpeb.
  assert (Hmb : (0 < IZR (Z.pos mb))%R) by (apply IZR_lt; lia).
  destruct a as [sa|sa| |sa ma ea]; try discriminate.
  - cbn [div SFdiv]. rewrite !mag_zero.
    split; [reflexivity | split; [reflexivity |]].
    unfold Rdiv. rewrite Rmult_0_l, Rminus_diag, Rabs_R0. lra.
  - unfold div, SFdiv, SFdiv_core_binary.
    set (d1 := Zdigits2 (Z.pos ma)). set (d2 := Zdigits2 (Z.pos mb)).
    set (e' := Z.min (fexp prec emax (d1 + ea - (d2 + eb))) (ea - eb)).
    set (s := ea - eb - e').
    assert (Hs : 0 ≤ s) by (unfold s, e'; lia).
    rewrite (shift_mantissa (Z.pos ma) s Hs).
    set (m' := Z.pos ma * 2 ^ s).
    assert (Hps : 0 < 2 ^ s) by (apply Z.pow_pos_nonneg; lia).
    assert (Hm' : 0 < m') by (unfold m'; lia).
    pose proof (Z_div_mod m' (Z.pos mb) ltac:(lia)) as Hdiv.
    destruct (Z.div_eucl m' (Z.pos mb)) as [q r]. destruct Hdiv as [Hqr Hr].
    assert (Hq0 : 0 ≤ q) by nia.
    (* digits of the quotient *)
    destruct (Zdigits2_bounds (Z.pos ma) ltac:(lia)) as [Hlo1 _].
    destruct (Zdigits2_bounds (Z.pos mb) ltac:(lia)) as [_ Hhi2].
    fold d1 in Hlo1. fold d2 in Hhi2.
    assert (Hd1 : 0 < d1) by (unfold d1; simpl; lia).
    assert (Hd2 : 0 < d2) by (unfold d2; simpl; lia).
    assert (Hdq : d1 + s - d2 ≤ Zdigits2 q).
    { destruct (Z.le_gt_cases (d1 + s - d2) 0) as [|Hpos];
        [pose proof (Zdigits2_nonneg q); lia |].
      assert (Hbig : 2 ^ (d1 + s - d2 - 1) * 2 ^ d2 ≤ m').
      { rewrite <- Z.pow_add_r by lia.
        replace (d1 + s - d2 - 1 + d2) with (d1 - 1 + s) by lia.
        rewrite Z.pow_add_r by lia. unfold m'.
        apply Z.mul_le_mono_nonneg_r; lia. }
      assert (Hp : 0 < 2 ^ (d1 + s - d2 - 1))
        by (apply Z.pow_pos_nonneg; lia).
      assert (Hqlo : 2 ^ (d1 + s - d2 - 1) ≤ q) by nia.
      apply Zdigits2_ge; lia. }
    assert (Halign : e' ≤ fexp prec emax (Zdigits2 q + e')).
    { pose proof (fexp_mono (d1 + ea - (d2 + eb)) (Zdigits2 q + e')
                    ltac:(unfold s in Hdq; lia)) as Hmono.
      unfold e' at 1. lia. }
    (* the real quotient *)
    rewrite !mag_finite in Hx |- *.
    pose proof (pow2_pos e') as Hpe'.
    assert (Hval : (IZR (Z.pos ma) * pow2 ea / (IZR (Z.pos mb) * pow2 eb)
                    = IZR m' / IZR (Z.pos mb) * pow2 e')%R).
    { unfold m'. rewrite mult_IZR, <- pow2_IZR by exact Hs.
      replace ea with (s + e' + eb) at 1 by (unfold s; lia).
      rewrite !pow2_add. field. lra. }
    rewrite Hval in Hx |- *.
    assert (Hm'R : IZR m' = (IZR (Z.pos mb) * IZR q + IZR r)%R).
    { rewrite Hqr, plus_IZR, mult_IZR. reflexivity. }
    assert (Hr0 : (0 <= IZR r)%R) by (apply IZR_le; lia).
    assert (Hr1 : (IZR r <= IZR (Z.pos mb))%R) by (apply IZR_le; lia).
    assert (Hquot : (IZR m' / IZR (Z.pos mb)
                     = IZR q + IZR r / IZR (Z.pos mb))%R).
    { rewrite Hm'R. field. lra. }
    assert (Hfrac : (0 <= IZR r / IZR (Z.pos mb) <= 1)%R).
    { split.
      - apply Rmult_le_pos; [exact Hr0 |].
        apply Rlt_le, Rinv_0_lt_compat. exact Hmb.
      - apply (Rmult_le_reg_r (IZR (Z.pos mb))); [exact Hmb |].
        unfold Rdiv. rewrite Rmult_assoc, Rinv_l by lra. lra. }
    assert (Hqlo : (IZR q <= IZR m' / IZR (Z.pos mb))%R) by lra.
    assert (Hqhi : (IZR m' / IZR (Z.pos mb) <= IZR (q + 1))%R)
      by (rewrite plus_IZR; lra).
    destruct (binary_round_aux_error (xorb sa sb) q e'
                (new_location (Z.pos mb) r)
                (IZR m' / IZR (Z.pos mb) * pow2 e') Hq0 Halign)
      as (Hfin & _ & Hvalid & Herr).
    + split; apply Rmult_le_compat_r; lra.
    + exact Hx.
    + split; [exact Hfin | split; [exact Hvalid | exact Herr]].
Qed.

Local Open Scope R_scope.

(** ** Error analysis over the reals *)

Lemma eps_value : eps = / 4503599627370496.
Proof.
  unfold eps. change (-52)%Z with (- (52))%Z.
  unfold pow2. rewrite powerRZ_neg'. f_equal.
  change (powerRZ 2 52) with (pow2 52). rewrite pow2_IZR by lia.
  reflexivity.
Qed.

Lemma Rabs_bounds (a b c : R) : Rabs (a - b) <= c → b - c <= a <= b + c.
Proof.
  intros H. pose proof (Rle_abs (a - b)) as H1.
  pose proof (Rle_abs (- (a - b))) as H2. rewrite Rabs_Ropp in H2. lra.
Qed.

(** The rounded sum of the two rounded squares. *)
Lemma sum_of_squares_bounds (x2 y2 P Q S h L2 : R) :
  0 <= x2 → 0 <= y2 → L2 <= x2 + y2 → 0 <= h → h <= L2 * / 1048576 * eps →
  Rabs (P - x2) <= eps * x2 + h →
  Rabs (Q - y2) <= eps * y2 + h →
  Rabs (S - (P + Q)) <= eps * (P + Q) + h →
  (x2 + y2) * (1 - 3 * eps) <= S <= (x2 + y2) * (1 + 3 * eps).
Proof.
  intros Hx Hy HL Hh0 Hh HP HQ HS.
  apply Rabs_bounds in HP, HQ, HS.
  rewrite eps_value in *. split; nra.
Qed.

Lemma sqrt_le_succ (z : R) : 0 <= z → R_sqrt.sqrt z <= 1 + z.
Proof.
  intros Hz. pose proof (sqrt_pos z) as Hs.
  pose proof (sqrt_sqrt z Hz) as Hss.
  destruct (Rle_lt_dec (R_sqrt.sqrt z) (1 + z)) as [|Hgt]; [assumption |].
  exfalso. nra.
Qed.

Section Analysis.

(** [l], [L2], [H2] and [big] stand for [2^-500], [2^-1000], [2^1000] and
    [2^1023]; [h] is the least subnormal. *)
Variables l L2 H2 big h : R.
Hypothesis Hl : 0 < l.
Hypothesis HlL : l * l = L2.
Hypothesis HL1 : L2 <= 1.
Hypothesis HH : 16 * H2 <= big.
Hypothesis H1H : 1 <= H2.
Hypothesis Hh0 : 0 <= h.
Hypothesis HhL : h <= L2 * / 1048576 * eps.
Hypothesis Hhl : h <= l * / 1048576 * eps.

Variables X Y : R.
Hypothesis HX0 : 0 <= X.
Hypothesis HY0 : 0 <= Y.
Hypothesis HXH : X * X <= H2.
Hypothesis HYH : Y * Y <= H2.
Hypothesis HA : L2 <= X * X + Y * Y.

Lemma square_in_range : X * X < big ∧ Y * Y < big.
Proof using All. split; lra. Qed.

Variables P Q : R.
Hypothesis HP : Rabs (P - X * X) <= eps * (X * X) + h.
Hypothesis HQ : Rabs (Q - Y * Y) <= eps * (Y * Y) + h.

Lemma sum_in_range : P + Q < big.
Proof using All.
  apply Rabs_bounds in HP, HQ. rewrite eps_value in HP, HQ, HhL.
  clear - HH H1H HXH HYH HP HQ HhL HL1 HX0 HY0 Hh0. nra.
Qed.

Variable S : R.
Hypothesis HS : Rabs (S - (P + Q)) <= eps * (P + Q) + h.

Lemma sum_bounds :
  (X * X + Y * Y) * (1 - 3 * eps) <= S <= (X * X + Y * Y) * (1 + 3 * eps).
Proof using All.
  apply (sum_of_squares_bounds (X * X) (Y * Y) P Q S h L2); try assumption.
  - nra.
  - nra.
Qed.

Lemma sum_nonneg : 0 <= S.
Proof using All.
  destruct sum_bounds as [Hlo _]. rewrite eps_value in *. nra.
Qed.

Lemma root_in_range : R_sqrt.sqrt S < big.
Proof using All.
  pose proof (sqrt_le_succ S sum_nonneg) as Hr.
  destruct sum_bounds as [_ Hhi]. rewrite eps_value in Hhi.
  clear - Hr Hhi HH H1H HXH HYH. nra.
Qed.

Variable M : R.
Hypothesis HM : Rabs (M - R_sqrt.sqrt S) <= eps * R_sqrt.sqrt S + h.

(** [alpha] is the exact magnitude. *)
Variable alpha : R.
Hypothesis Halpha0 : 0 < alpha.
Hypothesis Halpha : alpha * alpha = X * X + Y * Y.

Lemma alpha_ge : l <= alpha.
Proof using All. nra. Qed.

Lemma magnitude_bounds : alpha * (1 - 4 * eps) <= M <= alpha * (1 + 3 * eps).
Proof using All.
  pose proof sum_nonneg as HS0.
  pose proof (sqrt_pos S) as Hs0. pose proof (sqrt_sqrt S HS0) as Hss.
  destruct sum_bounds as [HSlo HShi]. rewrite <- Halpha in HSlo, HShi.
  pose proof alpha_ge as Hal.
  apply Rabs_bounds in HM.
  set (s := R_sqrt.sqrt S) in *.
  rewrite eps_value in HSlo, HShi, HM, Hhl |- *.
  clear - HSlo HShi HM Hhl Hal Hs0 Hss Halpha0 Hh0 Hl.
  assert (Hshi : s <= alpha * (1 + 3 / 2 * / 4503599627370496)).
  { destruct (Rle_lt_dec s (alpha * (1 + 3 / 2 * / 4503599627370496)))
      as [|Hgt]; [assumption | exfalso; clear - Hgt HShi Hss Hs0 Halpha0; nra]. }
  assert (Hslo : alpha * (1 - 2 * / 4503599627370496) <= s).
  { destruct (Rle_lt_dec (alpha * (1 - 2 * / 4503599627370496)) s)
      as [|Hgt]; [assumption | exfalso; clear - Hgt HSlo Hss Hs0 Halpha0; nra]. }
  clear HSlo HShi Hss.
  split; nra.
Qed.

Lemma magnitude_pos : 0 < M.
Proof using All.
  destruct magnitude_bounds as [Hlo _]. rewrite eps_value in *. nra.
Qed.

Hypothesis Hhu : h <= / 1048576 * eps.

(** A component [c] of the vector, [kappa] times the exact magnitude,
    and its rounded quotient [N] by the rounded magnitude. *)
Lemma quotient_bounds (c kappa : R) :
  0 <= c → 0 <= kappa → kappa * alpha = c →
  kappa * (1 - 3 * eps) <= c / M <= kappa * (1 + 5 * eps).
Proof using All.
  intros Hc0 Hk0 Hk.
  pose proof magnitude_pos as HM0.
  destruct magnitude_bounds as [HMlo HMhi].
  assert (Ht : c / M * M = c) by (field; lra).
  set (t := c / M) in *.
  assert (Ht0 : 0 <= t).
  { unfold t. apply Rmult_le_pos; [exact Hc0 |].
    apply Rlt_le, Rinv_0_lt_compat, HM0. }
  rewrite eps_value in *. split.
  - destruct (Rle_lt_dec (kappa * (1 - 3 * / 4503599627370496)) t)
      as [|Hgt]; [assumption | exfalso; nra].
  - destruct (Rle_lt_dec t (kappa * (1 + 5 * / 4503599627370496)))
      as [|Hgt]; [assumption | exfalso; nra].
Qed.

Lemma quotient_in_range (c kappa : R) :
  0 <= c → 0 <= kappa <= 1 → kappa * alpha = c → c / M < big.
Proof using All.
  intros Hc0 [Hk0 Hk1] Hk.
  destruct (quotient_bounds c kappa Hc0 Hk0 Hk) as [_ Hhi].
  rewrite eps_value in *. nra.
Qed.

Lemma component_square (c kappa N : R) :
  0 <= c → 0 <= kappa <= 1 → kappa * alpha = c → 0 <= N →
  Rabs (N - c / M) <= eps * (c / M) + h →
  N * N < big ∧
  kappa * kappa * (1 - 8 * eps) - 2 * h <= N * N
    <= kappa * kappa * (1 + 15 * eps) + 3 * h.
Proof using All.
  intros Hc0 [Hk0 Hk1] Hk HN0 HN.
  destruct (quotient_bounds c kappa Hc0 Hk0 Hk) as [Hlo Hhi].
  apply Rabs_bounds in HN. set (t := c / M) in *.
  assert (Hbig16 : 16 <= big) by lra.
  rewrite eps_value in Hlo, Hhi, HN, Hhu |- *.
  clear - Hlo Hhi HN Hhu Hh0 Hk0 Hk1 HN0 Hbig16.
  assert (HNhi : N <= kappa * (1 + 7 * / 4503599627370496) + h) by nra.
  assert (HNlo : kappa * (1 - 4 * / 4503599627370496) - h <= N) by nra.
  clear Hlo Hhi HN t.
  assert (HN2 : N <= 2) by nra.
  split; [nra | split].
  - destruct (Rle_lt_dec (kappa * (1 - 4 * / 4503599627370496)) h)
      as [Hsmall | Hbig]; nra.
  - nra.
Qed.

End Analysis.

Section Renormalized.

Variables big h : R.
Hypothesis Hbig : 16 <= big.
Hypothesis Hh0 : 0 <= h.
Hypothesis Hhu : h <= / 1048576 * eps.

(** [s1 + s2 = 1] are the exact squares of the unit components, [n1] and
    [n2] the squares of the rounded components. *)
Variables s1 s2 n1 n2 : R.
Hypothesis Hs1 : 0 <= s1.
Hypothesis Hs2 : 0 <= s2.
Hypothesis Hunit : s1 + s2 = 1.
Hypothesis Hn1 : s1 * (1 - 8 * eps) - 2 * h <= n1 <= s1 * (1 + 15 * eps) + 3 * h.
Hypothesis Hn2 : s2 * (1 - 8 * eps) - 2 * h <= n2 <= s2 * (1 + 15 * eps) + 3 * h.

Variables a b : R.
Hypothesis Ha : Rabs (a - n1) <= eps * n1 + h.
Hypothesis Hb : Rabs (b - n2) <= eps * n2 + h.

Lemma second_sum_in_range : a + b < big.
Proof using All.
  apply Rabs_bounds in Ha, Hb. rewrite eps_value in *. nra.
Qed.

Variable S' : R.
Hypothesis HS' : Rabs (S' - (a + b)) <= eps * (a + b) + h.

Lemma second_sum_bounds : 1 - 12 * eps <= S' <= 1 + 19 * eps.
Proof using All.
  apply Rabs_bounds in Ha, Hb, HS'. rewrite eps_value in *. split; nra.
Qed.

Lemma second_root_in_range : R_sqrt.sqrt S' < big.
Proof using All.
  destruct second_sum_bounds as [Hlo Hhi].
  assert (HS0 : 0 <= S') by (rewrite eps_value in *; lra).
  pose proof (sqrt_le_succ S' HS0). rewrite eps_value in *. lra.
Qed.

Variable M' : R.
Hypothesis HM' : Rabs (M' - R_sqrt.sqrt S') <= eps * R_sqrt.sqrt S' + h.

Lemma unit_magnitude : Rabs (M' - 1) <= 16 * eps.
Proof using All.
  destruct second_sum_bounds as [Hlo Hhi].
  assert (HS0 : 0 <= S') by (rewrite eps_value in *; lra).
  pose proof (sqrt_pos S') as Hs0. pose proof (sqrt_sqrt S' HS0) as Hss.
  apply Rabs_bounds in HM'. set (s := R_sqrt.sqrt S') in *.
  rewrite eps_value in Hlo, Hhi, HM', Hhu |- *.
  clear - Hlo Hhi HM' Hhu Hh0 Hs0 Hss.
  assert (Hshi : s <= 1 + 10 * / 4503599627370496).
  { destruct (Rle_lt_dec s (1 + 10 * / 4503599627370496))
      as [|Hgt]; [assumption | exfalso; clear - Hgt Hhi Hss Hs0; nra]. }
  assert (Hslo : 1 - 12 * / 4503599627370496 <= s).
  { destruct (Rle_lt_dec (1 - 12 * / 4503599627370496) s)
      as [|Hgt]; [assumption | exfalso; clear - Hgt Hlo Hss Hs0; nra]. }
  clear Hlo Hhi Hss.
  apply Rabs_le. split; lra.
Qed.

End Renormalized.

Local Close Scope R_scope.

(** ** The magnitude of a normalized vector *)


Lemma moderate_spec (c : float) :
  moderate c = true →
  valid c = true ∧ is_finite c = true ∧ is_nan c = false ∧
  ((∃ s, c = S754_zero s) ∨ (pow2 (-500) <= mag c <= pow2 500)%R).
Proof.
  unfold moderate. intros H. apply andb_true_iff in H as [Hv Hr].
  split; [exact Hv |].
  destruct c as [s|s| |s m e]; try discriminate.
  - split; [reflexivity | split; [reflexivity | left; eauto]].
  - split; [reflexivity | split; [reflexivity | right]].
    apply andb_true_iff in Hr as [Hlo Hhi].
    apply Z.leb_le in Hlo, Hhi.
    destruct (digits2_pos_bounds m) as [Hmlo Hmhi].
    rewrite mag_finite. pose proof (pow2_pos e) as Hpe.
    set (d := Z.pos (digits2_pos m)) in *.
    assert (Hd : 0 < d) by (unfold d; lia).
    split.
    + apply Rle_trans with (pow2 (d - 1 + e)); [apply pow2_le; lia |].
      rewrite pow2_add, (pow2_IZR (d - 1)) by lia.
      apply Rmult_le_compat_r; [lra | apply IZR_le; exact Hmlo].
    + apply Rle_trans with (pow2 (d + e)); [| apply pow2_le; lia].
      rewrite pow2_add, (pow2_IZR d) by lia.
      apply Rmult_le_compat_r; [lra | apply IZR_le; lia].
Qed.

Lemma mag_pos_finite (f : float) :
  is_finite f = true → (0 < mag f)%R → ∃ s m e, f = S754_finite s m e.
Proof.
  destruct f as [s|s| |s m e]; try discriminate; intros _ H.
  - rewrite mag_zero in H. lra.
  - eauto.
Qed.

Lemma magnitude_sqrt (v : vec) :
  is_nan (vec_x v) = false → is_nan (vec_y v) = false →
  Vector2.magnitude v
  = Ok (sqrt (add (mul (vec_x v) (vec_x v)) (mul (vec_y v) (vec_y v)))).
Proof.
  intros Hx Hy. rewrite magnitude_value.
  apply math_sqrt_nonneg, add_nonneg; apply mul_self_nonneg; assumption.
Qed.

Lemma pow2_consts :
  (0 < pow2 (-500))%R ∧
  (pow2 (-500) * pow2 (-500))%R = pow2 (-1000) ∧
  (pow2 (-1000) <= 1)%R ∧
  (16 * pow2 1000 <= pow2 1023)%R ∧
  (1 <= pow2 1000)%R ∧
  (0 <= eta)%R ∧
  (eta <= pow2 (-1000) * / 1048576 * eps)%R ∧
  (eta <= pow2 (-500) * / 1048576 * eps)%R ∧
  (eta <= / 1048576 * eps)%R ∧
  (pow2 500 * pow2 500)%R = pow2 1000 ∧
  (16 <= pow2 1023)%R.
Proof.
  assert (H20 : (/ 1048576)%R = pow2 (-20)).
  { change (-20) with (- (20)). unfold pow2. rewrite powerRZ_neg'. f_equal.
    change (powerRZ 2 20) with (pow2 20). rewrite pow2_IZR by lia.
    reflexivity. }
  assert (H16 : 16%R = pow2 4) by (rewrite pow2_IZR by lia; reflexivity).
  assert (H1 : 1%R = pow2 0) by reflexivity.
  unfold eta, eps. rewrite H20, H16.
  rewrite <- !pow2_add. rewrite H1.
  repeat split; try apply pow2_le; try apply pow2_pos; try lia.
  apply Rlt_le, pow2_pos.
Qed.

Section Unit.
Variables (fx fy : float).
Hypothesis Hmx : moderate fx = true.
Hypothesis Hmy : moderate fy = true.
Hypothesis Hnz : Vector2.is_zero (Vec fx fy) = Ok false.

Lemma normalized_unit :
  ∃ n m, Vector2.normalized (Vec fx fy) = Ok n ∧
         Vector2.magnitude n = Ok m ∧
         (Rabs (B2R m - 1) <= tolerance)%R.
Proof using All.
  destruct (moderate_spec fx Hmx) as (Vx & Fx & Nx & Rx).
  destruct (moderate_spec fy Hmy) as (Vy & Fy & Ny & Ry).
  destruct pow2_consts
    as (Hl & HlL & HL1 & HH & H1H & Hh0 & HhL & Hhl & Hhu & H500 & Hbig).
  set (l := pow2 (-500)) in *. set (L2 := pow2 (-1000)) in *.
  set (H2 := pow2 1000) in *. set (big := pow2 1023) in *.
  set (X := mag fx). set (Y := mag fy).
  pose proof (mag_nonneg fx) as HX0. pose proof (mag_nonneg fy) as HY0.
  fold X in HX0. fold Y in HY0.
  assert (HXr : (X = 0 ∨ l <= X <= pow2 500)%R).
  { destruct Rx as [[s ->] | Hr]; [left; apply mag_zero | right; exact Hr]. }
  assert (HYr : (Y = 0 ∨ l <= Y <= pow2 500)%R).
  { destruct Ry as [[s ->] | Hr]; [left; apply mag_zero | right; exact Hr]. }
  assert (HXH : (X * X <= H2)%R).
  { rewrite <- H500. pose proof (pow2_pos 500).
    destruct HXr as [-> | Hr]; nra. }
  assert (HYH : (Y * Y <= H2)%R).
  { rewrite <- H500. pose proof (pow2_pos 500).
    destruct HYr as [-> | Hr]; nra. }
  assert (HA : (L2 <= X * X + Y * Y)%R).
  { rewrite is_zero_value in Hnz. cbn [vec_x vec_y] in Hnz.
    injection Hnz as Hz. apply andb_false_iff in Hz.
    rewrite <- HlL.
    destruct Hz as [Hz | Hz].
    - destruct Rx as [[s ->] | Hr]; [discriminate Hz |]. fold X l in Hr. nra.
    - destruct Ry as [[s ->] | Hr]; [discriminate Hz |]. fold Y l in Hr. nra. }
  (* first magnitude *)
  destruct (square_in_range l L2 H2 big eta Hl HlL HL1 HH H1H Hh0 HhL Hhl
              X Y HX0 HY0 HXH HYH HA) as [HXb HYb].
  destruct (mul_error fx fx Vx Vx Fx Fx HXb) as (Fp & Vp & HP).
  destruct (mul_error fy fy Vy Vy Fy Fy HYb) as (Fq & Vq & HQ).
  pose proof (mul_self_nonneg fx Nx) as Sp.
  pose proof (mul_self_nonneg fy Ny) as Sq.
  set (p := mul fx fx) in *. set (q := mul fy fy) in *.
  fold X in HP. fold Y in HQ.
  pose proof (sum_in_range l L2 H2 big eta Hl HlL HL1 HH H1H Hh0 HhL Hhl
                X Y HX0 HY0 HXH HYH HA (mag p) (mag q) HP HQ) as HPQ.
  destruct (add_error p q Sp Sq Fp Fq Vp Vq HPQ) as (Fs & Ss & Vs & HS).
  set (sf := add p q) in *.
  pose proof (root_in_range l L2 H2 big eta Hl HlL HL1 HH H1H Hh0 HhL Hhl
                X Y HX0 HY0 HXH HYH HA (mag p) (mag q) HP HQ (mag sf) HS)
    as Hroot.
  destruct (sqrt_error sf Ss Fs Hroot) as (Fm & Sm & Vm & HM).
  set (mf := sqrt sf) in *.
  (* the exact magnitude *)
  set (alpha := R_sqrt.sqrt (X * X + Y * Y)).
  assert (HL0 : (0 < L2)%R) by apply pow2_pos.
  assert (HA0 : (0 < X * X + Y * Y)%R) by lra.
  assert (Halpha0 : (0 < alpha)%R) by (apply sqrt_lt_R0; exact HA0).
  assert (Halpha : (alpha * alpha = X * X + Y * Y)%R)
    by (apply sqrt_sqrt; lra).
  pose proof (magnitude_pos l L2 H2 big eta Hl HlL HL1 HH H1H Hh0 HhL Hhl
                X Y HX0 HY0 HXH HYH HA (mag p) (mag q) HP HQ (mag sf) HS
                (mag mf) HM alpha Halpha0 Halpha) as HMpos.
  destruct (mag_pos_finite mf Fm HMpos) as (sm & mm & em & Hmf).
  assert (Hmag : Vector2.magnitude (Vec fx fy) = Ok mf)
    by (apply (magnitude_sqrt (Vec fx fy)); assumption).
  assert (Hnorm : Vector2.normalized (Vec fx fy)
                  = Ok (Vec (div fx mf) (div fy mf))).
  { unfold Vector2.normalized. rewrite Hnz, Hmag. cbn [mbind outcome_bind rt_bind value_runtime].
    apply (truediv_value (Vec fx fy) mf). rewrite Hmf.
    destruct sm; reflexivity. }
  (* the components of the normalized vector *)
  set (xi := (X / alpha)%R). set (zeta := (Y / alpha)%R).
  assert (Hxi : (xi * alpha = X)%R) by (unfold xi; field; lra).
  assert (Hzeta : (zeta * alpha = Y)%R) by (unfold zeta; field; lra).
  assert (Hxi0 : (0 <= xi)%R).
  { unfold xi. apply Rmult_le_pos; [exact HX0 |].
    apply Rlt_le, Rinv_0_lt_compat, Halpha0. }
  assert (Hzeta0 : (0 <= zeta)%R).
  { unfold zeta. apply Rmult_le_pos; [exact HY0 |].
    apply Rlt_le, Rinv_0_lt_compat, Halpha0. }
  assert (Hunit : (xi * xi + zeta * zeta = 1)%R).
  { unfold xi, zeta.
    replace (X / alpha * (X / alpha) + Y / alpha * (Y / alpha))%R
      with ((X * X + Y * Y) / (alpha * alpha))%R by (field; lra).
    rewrite Halpha. field. lra. }
  assert (Hxi1 : (xi <= 1)%R) by (clear - Hxi0 Hzeta0 Hunit; nra).
  assert (Hzeta1 : (zeta <= 1)%R) by (clear - Hxi0 Hzeta0 Hunit; nra).
  pose proof (quotient_in_range l L2 H2 big eta Hl HlL HL1 HH H1H Hh0 HhL Hhl
                X Y HX0 HY0 HXH HYH HA (mag p) (mag q) HP HQ (mag sf) HS
                (mag mf) HM alpha Halpha0 Halpha Hhu) as Hquot.
  pose proof (component_square l L2 H2 big eta Hl HlL HL1 HH H1H Hh0 HhL Hhl
                X Y HX0 HY0 HXH HYH HA (mag p) (mag q) HP HQ (mag sf) HS
                (mag mf) HM alpha Halpha0 Halpha Hhu) as Hcomp.
  destruct (div_error fx mf sm mm em Hmf Fx
              (Hquot X xi HX0 (conj Hxi0 Hxi1) Hxi)) as (Fnx & Vnx & HNX).
  destruct (div_error fy mf sm mm em Hmf Fy
              (Hquot Y zeta HY0 (conj Hzeta0 Hzeta1) Hzeta))
    as (Fny & Vny & HNY).
  set (nx := div fx mf) in *. set (ny := div fy mf) in *.
  fold X in HNX. fold Y in HNY.
  destruct (Hcomp X xi (mag nx) HX0 (conj Hxi0 Hxi1) Hxi (mag_nonneg nx) HNX)
    as [Hnxb Hn1].
  destruct (Hcomp Y zeta (mag ny) HY0 (conj Hzeta0 Hzeta1) Hzeta
              (mag_nonneg ny) HNY) as [Hnyb Hn2].
  (* second magnitude *)
  assert (Nnx : is_nan nx = false) by (destruct nx; try discriminate; reflexivity).
  assert (Nny : is_nan ny = false) by (destruct ny; try discriminate; reflexivity).
  destruct (mul_error nx nx Vnx Vnx Fnx Fnx Hnxb) as (Fa & Va & Ha).
  destruct (mul_error ny ny Vny Vny Fny Fny Hnyb) as (Fb & Vb & Hb).
  pose proof (mul_self_nonneg nx Nnx) as Sa.
  pose proof (mul_self_nonneg ny Nny) as Sb.
  set (a := mul nx nx) in *. set (b := mul ny ny) in *.
  assert (Hs1 : (0 <= xi * xi)%R) by (apply Rmult_le_pos; exact Hxi0).
  assert (Hs2 : (0 <= zeta * zeta)%R) by (apply Rmult_le_pos; exact Hzeta0).
  pose proof (second_sum_in_range big eta Hbig Hh0 Hhu
                (xi * xi) (zeta * zeta) (mag nx * mag nx) (mag ny * mag ny)
                Hs1 Hs2 Hunit Hn1 Hn2 (mag a) (mag b) Ha Hb)
    as Hab.
  destruct (add_error a b Sa Sb Fa Fb Va Vb Hab) as (Fs' & Ss' & Vs' & HS').
  set (sf' := add a b) in *.
  pose proof (second_root_in_range big eta Hbig Hh0 Hhu
                (xi * xi) (zeta * zeta) (mag nx * mag nx) (mag ny * mag ny)
                Hs1 Hs2 Hunit Hn1 Hn2 (mag a) (mag b) Ha Hb
                (mag sf') HS') as Hroot'.
  destruct (sqrt_error sf' Ss' Fs' Hroot') as (Fm' & Sm' & Vm' & HM').
  set (mf' := sqrt sf') in *.
  pose proof (unit_magnitude big eta Hbig Hh0 Hhu
                (xi * xi) (zeta * zeta) (mag nx * mag nx) (mag ny * mag ny)
                Hs1 Hs2 Hunit Hn1 Hn2 (mag a) (mag b) Ha Hb
                (mag sf') HS' (mag mf') HM') as Hfinal.
  exists (Vec nx ny), mf'.
  split; [exact Hnorm | split].
  - apply (magnitude_sqrt (Vec nx ny)); assumption.
  - rewrite (B2R_sign false mf' Sm'), Rmult_1_l.
    unfold tolerance. replace (pow2 (-48)) with (16 * eps)%R; [exact Hfinal |].
    unfold eps. replace 16%R with (pow2 4) by (rewrite pow2_IZR by lia; reflexivity).
    rewrite <- pow2_add. reflexivity.
Qed.

End Unit.

(** ** Division and normalization *)

(** C2, as the code has it: a float divisor that is not zero gives the
    componentwise quotients; a zero divisor, [0.0] or [-0.0], makes the
    float division raise [ZeroDivisionError]; the method has no guard of
    its own and produces no infinity or NaN then. *)
Theorem truediv_spec (v : vec) (s : float) :
  (eqb s zero = false →
   Vector2.__truediv__ v (PFloat s)
   = Ok (Vec (div (vec_x v) s) (div (vec_y v) s))) ∧
  (eqb s zero = true →
   ∃ msg, Vector2.__truediv__ v (PFloat s) = Raise (ZeroDivisionError msg) ∧
          kind_of (ZeroDivisionError msg) = None).
Proof.
  split; intros Hs.
  - apply truediv_value, Hs.
  - eexists. split; [apply truediv_zero, Hs | reflexivity].
Qed.

Lemma truediv_spec_witness :
  Vector2.__truediv__ (Vec three four) (PFloat two)
  = Ok (Vec (div three two) (div four two)) ∧
  ∃ msg, Vector2.__truediv__ (Vec three four) (PFloat neg_zero)
         = Raise (ZeroDivisionError msg) ∧
         kind_of (ZeroDivisionError msg) = None.
Proof.
  split.
  - apply (truediv_spec (Vec three four) two). reflexivity.
  - apply (truediv_spec (Vec three four) neg_zero). reflexivity.
Defined.

(** C2 fails as stated: dividing by [0.0] returns no vector at all. *)
Lemma truediv_zero_raises :
  ¬ ∃ r, Vector2.__truediv__ (Vec one two) (PFloat zero) = Ok r.
Proof. intros [r Hr]. vm_compute in Hr. discriminate Hr. Qed.

(** The quotient is not the product by the rounded reciprocal:
    [3.0 / 10.0] is [0.3], [3.0 * (1.0 / 10.0)] is [0.30000000000000004]. *)
Example quotient_not_reciprocal :
  div three ten ≠ mul three (div one ten).
Proof. vm_compute. discriminate. Qed.

(** C1, as the code has it: [normalized()] raises [ValueError] exactly
    when [is_zero()] holds, before any division; otherwise its outcome is
    that of [self / self.magnitude()], the vector of the quotients when
    the magnitude is not zero; and when both components are zero or finite
    with [2^-500 <= |c| < 2^500], the magnitude of the result is within
    [2^-48] of [1.0]. *)
Theorem normalized_spec (v : vec) :
  (Vector2.is_zero v = Ok true →
   Vector2.normalized v = Raise (ValueError "Cannot normalize zero-vector.") ∧
   kind_of (ValueError "Cannot normalize zero-vector.")
   = Some InvalidOperation) ∧
  (Vector2.is_zero v = Ok false →
   ∃ m, Vector2.magnitude v = Ok m ∧
        Vector2.normalized v = Vector2.__truediv__ v (PFloat m) ∧
        (∀ e, Vector2.normalized v = Raise e →
              kind_of e ≠ Some InvalidOperation) ∧
        (eqb m zero = false →
         Vector2.normalized v
         = Ok (Vec (div (vec_x v) m) (div (vec_y v) m)))) ∧
  (Vector2.is_zero v = Ok false →
   moderate (vec_x v) = true → moderate (vec_y v) = true →
   ∃ n m, Vector2.normalized v = Ok n ∧ Vector2.magnitude n = Ok m ∧
          (Rabs (B2R m - 1) <= tolerance)%R).
Proof.
  split; [| split].
  - intros Hz. unfold Vector2.normalized. rewrite Hz. split; reflexivity.
  - intros Hz. destruct (magnitude_total v) as [m Hm]. exists m.
    assert (Hn : Vector2.normalized v = Vector2.__truediv__ v (PFloat m)).
    { unfold Vector2.normalized. rewrite Hz, Hm. reflexivity. }
    split; [exact Hm | split; [exact Hn | split]].
    + intros e He. rewrite Hn in He.
      destruct (eqb m zero) eqn:Hm0.
      * rewrite (truediv_zero v m Hm0) in He. injection He as <-. discriminate.
      * rewrite (truediv_value v m Hm0) in He. discriminate He.
    + intros Hm0. rewrite Hn. apply truediv_value, Hm0.
  - intros Hz Hx Hy. destruct v as [fx fy].
    apply (normalized_unit fx fy Hx Hy Hz).
Qed.

Lemma normalized_spec_witness :
  Vector2.normalized (Vec zero neg_zero)
  = Raise (ValueError "Cannot normalize zero-vector.") ∧
  (∃ m, Vector2.magnitude (Vec three four) = Ok m ∧
        Vector2.normalized (Vec three four)
        = Vector2.__truediv__ (Vec three four) (PFloat m)) ∧
  ∃ n m, Vector2.normalized (Vec three (neg four)) = Ok n ∧
         Vector2.magnitude n = Ok m ∧
         (Rabs (B2R m - 1) <= tolerance)%R.
Proof.
  split; [| split].
  - apply (normalized_spec (Vec zero neg_zero)). reflexivity.
  - destruct (proj1 (proj2 (normalized_spec (Vec three four))) eq_refl)
      as (m & Hm & Hn & _).
    exists m. split; [exact Hm | exact Hn].
  - apply (proj2 (proj2 (normalized_spec (Vec three (neg four)))));
      reflexivity.
Defined.

(** C1 fails as stated: the square of [2.0 ** -600] underflows, the
    magnitude of this non-zero vector is [0.0], and the division raises. *)
Lemma normalized_underflow_raises :
  Vector2.is_zero (Vec tiny zero) = Ok false ∧
  ¬ ∃ r, Vector2.normalized (Vec tiny zero) = Ok r.
Proof.
  split; [reflexivity |].
  intros [r Hr]. vm_compute in Hr. discriminate Hr.
Qed.

Example normalized_underflow :
  Vector2.normalized (Vec tiny zero)
  = Raise (ZeroDivisionError "float division by zero").
Proof. vm_compute. reflexivity. Qed.

Example normalized_overflow :
  Vector2.normalized_magnitude (Vec (ldexp one 600) (ldexp one 600)) = Ok zero.
Proof. vm_compute. reflexivity. Qed.

Example normalized_3_4 :
  Vector2.normalized_magnitude (Vec three four) = Ok one.
Proof. vm_compute. reflexivity. Qed.

(** ** Methods on the store *)

Lemma read_x (h : heap) (l : loc) (v : vec) :
  h !! l = Some (object_of v) →
  getattr_x l h = Some (Ok (vec_x v), h).
Proof. intros H. simpl. unfold read_slot. rewrite H. reflexivity. Qed.

Lemma read_y (h : heap) (l : loc) (v : vec) :
  h !! l = Some (object_of v) →
  getattr_y l h = Some (Ok (vec_y v), h).
Proof. intros H. simpl. unfold read_slot. rewrite H. reflexivity. Qed.

Lemma construct_run (h : heap) (fx fy : float) :
  construct fx fy h
  = Some (Ok (fresh (dom h)), <[fresh (dom h) := object_of (Vec fx fy)]> h).
Proof.
  unfold construct, allocate, __init__, setattr_x, setattr_y.
  unfold mbind, heap_bind, mret, heap_ret.
  rewrite !lookup_insert_eq, !insert_insert_eq. reflexivity.
Qed.

Lemma deref_Some (h : heap) (l : loc) (w : vec) :
  deref h l = Some w → h !! l = Some (object_of w).
Proof.
  unfold deref. destruct (h !! l) as [[[fx|] [fy|]]|]; intros H; simplify_eq.
  reflexivity.
Qed.

Lemma operand_value_inv (h : heap) (other : pyval loc) (ov : pyval vec) :
  operand_value h other = Some ov →
  match other, ov with
  | PFloat f, PFloat f' => f = f'
  | PInt n, PInt n' => n = n'
  | PBool b, PBool b' => b = b'
  | PStr s, PStr s' => s = s'
  | PNone, PNone => True
  | PVec l, PVec w => h !! l = Some (object_of w)
  | _, _ => False
  end.
Proof.
  destruct other as [f|n|b|s| |l]; simpl; intros H; simplify_eq; auto.
  destruct (deref h l) as [w|] eqn:Hl; simpl in H; simplify_eq.
  apply deref_Some, Hl.
Qed.

Lemma fresh_lookup (h : heap) : h !! fresh (dom h) = None.
Proof. apply not_elem_of_dom, is_fresh. Qed.

Lemma insert_fresh_keeps (h : heap) (o : object) (l : loc) (o' : object) :
  h !! l = Some o' → <[fresh (dom h) := o]> h !! l = Some o'.
Proof.
  intros H. rewrite lookup_insert_ne; [exact H |].
  intros Heq. rewrite <- Heq, fresh_lookup in H. discriminate.
Qed.

(** *** Tactics for running methods on the store *)

Ltac unfold_runtime :=
  cbv [mbind mret mthrow rt_bind rt_ret rt_throw heap_runtime value_runtime
       heap_bind heap_ret heap_throw outcome_bind outcome_ret outcome_throw
       getattr_x getattr_y new_Vector2 read_slot lift_outcome
       Vector2.call Vector2.x Vector2.y Vector2.is_zero
       Vector2.square_magnitude Vector2.magnitude Vector2.normalized
       Vector2.dot Vector2.cross Vector2.angle Vector2.angle_between
       Vector2.distance Vector2.updated Vector2.__repr__ Vector2.__str__
       Vector2.__eq__ Vector2.__bool__ Vector2.__len__ Vector2.__hash__
       Vector2.__add__ Vector2.__sub__ Vector2.__mul__ Vector2.__truediv__
       Vector2.__neg__ Vector2.__abs__ Vector2.__getitem__ Vector2.__iter__
       Vector2.__copy__].

Ltac store_step :=
  first
    [ rewrite construct_run
    | rewrite lookup_insert_eq
    | match goal with
      | H : ?h !! ?l = Some _ |- context [?h !! ?l] => rewrite H
      end
    | progress cbn [object_of slot_x slot_y vec_x vec_y fst snd]
    | match goal with
      | H : float_truediv ?a ?b = _ |- context [float_truediv ?a ?b] =>
          rewrite H
      | H : math_sqrt ?a = _ |- context [math_sqrt ?a] => rewrite H
      | H : eqb ?a ?b = _ |- context [eqb ?a ?b] => rewrite H
      | |- context [float_truediv ?a ?b] => destruct (float_truediv a b) eqn:?
      | |- context [math_sqrt ?a] => destruct (math_sqrt a) eqn:?
      | |- context [if eqb ?a ?b then _ else _] => destruct (eqb a b) eqn:?
      | |- context [if ?a =? ?b then _ else _] => destruct (a =? b)
      | |- context [match ?o with Some _ => _ | None => _ end] =>
          is_var o; destruct o
      | |- context [match ?o with Ok _ => _ | Raise _ => _ end] =>
          destruct o
      end ].

Ltac store_run := unfold_runtime; repeat store_step.

Ltac store_finish :=
  eexists _, _; split; [reflexivity |];
  split; [first [ intros ? ? Hl; exact Hl
                | intros ? ? Hl; apply insert_fresh_keeps; exact Hl ] |];
  split;
    [ intros Hp res Hres;
      first [ discriminate Hp
            | discriminate Hres
            | simplify_eq; eexists _, _; split; [reflexivity |];
              split; [apply fresh_lookup | apply lookup_insert_eq] ]
    | cbn; rewrite ?lookup_insert_eq; auto ].

Section Store.
Variable math_atan2 : float → float → float.
Variable math_acos : float → outcome float.
Variable float_repr : float → string.

Lemma call_store (h : heap) (self : loc) (v : vec)
    (op : Vector2.operation loc) (op' : Vector2.operation vec) :
  h !! self = Some (object_of v) →
  operation_value h op = Some op' →
  ∃ out h',
    Vector2.call math_atan2 math_acos float_repr self op h = Some (out, h') ∧
    (∀ l o, h !! l = Some o → h' !! l = Some o) ∧
    (Vector2.produces_vector op = true →
     ∀ res, out = Ok res →
       ∃ r w, res = Vector2.RVec r ∧ h !! r = None ∧
              h' !! r = Some (object_of w)) ∧
    outcome_agrees h' out
      (Vector2.call math_atan2 math_acos float_repr v op').
Proof.
  intros Hself Hop.
  destruct op as [ | | | | | |o|o| |o|o|ux uy| | |o| | | |o|o|o|o| | |idx| | ];
    simpl in Hop;
    try (destruct (deref h o) as [w|] eqn:Ho; simpl in Hop;
         [apply deref_Some in Ho | discriminate Hop]);
    try (destruct (operand_value h o) as [ov|] eqn:Ho; simpl in Hop;
         [apply operand_value_inv in Ho | discriminate Hop];
         destruct o, ov; try contradiction; subst);
    simplify_eq.
  all: store_run; store_finish.
Qed.

(** C8: every operation of the interface returns, leaves the components
    of its subject and of every other instance of the store as they were,
    and, when it builds a vector, returns a reference to an object that
    did not exist before. *)
Theorem operations_keep_instances (h : heap) (self : loc) (v : vec)
    (op : Vector2.operation loc) (op' : Vector2.operation vec) :
  h !! self = Some (object_of v) →
  operation_value h op = Some op' →
  ∃ out h',
    Vector2.call math_atan2 math_acos float_repr self op h = Some (out, h') ∧
    h' !! self = Some (object_of v) ∧
    (∀ l o, h !! l = Some o → h' !! l = Some o) ∧
    (Vector2.produces_vector op = true →
     ∀ res, out = Ok res →
       ∃ r w, res = Vector2.RVec r ∧ r ≠ self ∧ h !! r = None ∧
              h' !! r = Some (object_of w)).
Proof.
  intros Hself Hop.
  destruct (call_store h self v op op' Hself Hop)
    as (out & h' & Hrun & Hkeep & Hfresh & _).
  exists out, h'. split; [exact Hrun |].
  split; [apply Hkeep, Hself |]. split; [exact Hkeep |].
  intros Hp res Hres.
  destruct (Hfresh Hp res Hres) as (r & w & -> & Hnew & Hr).
  exists r, w. split; [reflexivity |]. split; [| split; assumption].
  intros ->. rewrite Hself in Hnew. discriminate Hnew.
Qed.

End Store.

Lemma operations_keep_instances_witness :
  ∃ out h',
    Vector2.call (λ _ _, zero) (λ _, Ok zero) (λ _, EmptyString)
      1%positive (Vector2.Op_add (PVec 2%positive)) sample_heap
    = Some (out, h') ∧
    h' !! 1%positive = Some (object_of (Vec three four)) ∧
    (∀ l o, sample_heap !! l = Some o → h' !! l = Some o) ∧
    (Vector2.produces_vector (Vector2.Op_add (PVec 2%positive)) = true →
     ∀ res, out = Ok res →
       ∃ r w, res = Vector2.RVec r ∧ r ≠ 1%positive ∧
              sample_heap !! r = None ∧ h' !! r = Some (object_of w)).
Proof.
  apply (operations_keep_instances (λ _ _, zero) (λ _, Ok zero)
           (λ _, EmptyString) sample_heap 1%positive (Vec three four)
           (Vector2.Op_add (PVec 2%positive))
           (Vector2.Op_add (PVec (Vec one two)))).
  - reflexivity.
  - reflexivity.
Defined.

Example add_on_sample_heap :
  Vector2.__add__ 1%positive (PVec 2%positive) sample_heap
  = Some (Ok 3%positive,
          <[3%positive := object_of (Vec four (add four two))]> sample_heap).
Proof. vm_compute. reflexivity. Qed.

(** * Further properties of the code *)

(** ** Algebra of the float operations *)

Lemma mul_comm (a b : float) : mul a b = mul b a.
Proof.
  destruct a as [sa|sa| |sa ma ea], b as [sb|sb| |sb mb eb];
    cbn [mul SFmul]; try reflexivity;
    rewrite ?(xorb_comm sa sb); try reflexivity.
  rewrite (Pos.mul_comm ma mb), (Z.add_comm ea eb). reflexivity.
Qed.

Lemma add_comm (a b : float) : add a b = add b a.
Proof.
  destruct a as [sa|sa| |sa ma ea], b as [sb|sb| |sb mb eb];
    cbn [add SFadd]; try reflexivity;
    try (destruct sa, sb; reflexivity).
  rewrite (Z.min_comm ea eb), Z.add_comm. reflexivity.
Qed.

Lemma sub_add_neg (a b : float) : sub a b = add a (neg b).
Proof.
  destruct a as [sa|sa| |sa ma ea], b as [sb|sb| |sb mb eb];
    cbn [sub SFsub add SFadd neg SFopp]; try reflexivity;
    destruct sa, sb; reflexivity.
Qed.

Lemma neg_involutive (a : float) : neg (neg a) = a.
Proof. destruct a as [s|s| |s m e]; cbn; rewrite ?negb_involutive; reflexivity. Qed.

Lemma binary_round_aux_neg (s : bool) (m e : Z) (l : location) :
  binary_round_aux prec emax (negb s) m e l
  = neg (binary_round_aux prec emax s m e l).
Proof.
  unfold binary_round_aux.
  destruct (shr_fexp prec emax m e l) as [mrs' e'].
  destruct (shr_fexp prec emax _ e' loc_Exact) as [mrs'' e''].
  destruct (shr_m mrs''); try reflexivity.
  destruct (e'' <=? emax - prec); reflexivity.
Qed.

Lemma binary_normalize_opp (z e : Z) :
  z ≠ 0 →
  binary_normalize prec emax (- z) e false
  = neg (binary_normalize prec emax z e false).
Proof.
  intros Hz. destruct z as [|p|p]; [contradiction | |].
  - change (- Z.pos p) with (Z.neg p). unfold binary_normalize, binary_round.
    destruct (shl_align p e _) as [mz ez].
    apply (binary_round_aux_neg false).
  - change (- Z.neg p) with (Z.pos p). unfold binary_normalize, binary_round.
    destruct (shl_align p e _) as [mz ez].
    rewrite (binary_round_aux_neg false), neg_involutive. reflexivity.
Qed.

(** Swapping the operands of a subtraction negates the result, the sign
    of a zero result apart. *)
Lemma sub_swap (a b : float) :
  sub a b = neg (sub b a) ∨
  (is_zero_float (sub a b) = true ∧ is_zero_float (sub b a) = true).
Proof.
  destruct a as [sa|sa| |sa ma ea], b as [sb|sb| |sb mb eb];
    cbn [sub SFsub neg SFopp is_zero_float];
    try (left; rewrite ?negb_involutive; reflexivity);
    try (destruct sa, sb; cbn; auto; fail).
  rewrite (Z.min_comm eb ea).
    set (za := cond_Zopp sa (Z.pos (shl_align ma ea (Z.min ea eb)).1)).
    set (zb := cond_Zopp sb (Z.pos (shl_align mb eb (Z.min ea eb)).1)).
  destruct (Z.eq_dec (za - zb) 0) as [Heq | Hne].
  - right. replace (zb - za) with 0 by lia. rewrite Heq. auto.
  - left. replace (za - zb) with (- (zb - za)) by lia.
    apply binary_normalize_opp. lia.
Qed.




Lemma compare_swap (a b : float) :
  SFcompare a b = option_map CompOpp (SFcompare b a).
Proof.
  destruct a as [sa|sa| |sa ma ea], b as [sb|sb| |sb mb eb];
    cbn [SFcompare option_map]; try reflexivity;
    try (destruct sa; reflexivity); try (destruct sb; reflexivity);
    try (destruct sa, sb; reflexivity).
  destruct sa, sb; try reflexivity; f_equal;
    rewrite (Z.compare_antisym ea eb);
    destruct (ea ?= eb); cbn [CompOpp]; try reflexivity;
    rewrite (Pos.compare_cont_antisym mb ma Eq); cbn [CompOpp];
    rewrite ?CompOpp_involutive; reflexivity.
Qed.

Lemma eqb_sym (a b : float) : eqb a b = eqb b a.
Proof.
  unfold eqb, SFeqb. rewrite (compare_swap a b).
  destruct (SFcompare b a) as [[]|]; reflexivity.
Qed.

Lemma valid_canonical (s : bool) (m : positive) (e : Z) :
  valid (S754_finite s m e) = true →
  fexp prec emax (Z.pos (digits2_pos m) + e) = e ∧ e ≤ 971.
Proof.
  unfold valid, valid_binary, SpecFloat.bounded, canonical_mantissa.
  intros H. apply andb_true_iff in H as [Hc He].
  apply Z.eqb_eq in Hc. apply Z.leb_le in He.
  split; [exact Hc | unfold emax, prec in He; lia].
Qed.

Lemma shr_fexp_unit (m : positive) (e : Z) :
  fexp prec emax (Z.pos (digits2_pos m) + e) = e →
  shr_fexp prec emax (Z.pos (m * 4503599627370496)) (e + -52) loc_Exact
  = (Build_shr_record (Z.pos m) false false, e).
Proof.
  intros Hc. unfold shr_fexp, Zdigits2. rewrite digits2_shift52.
  replace (Z.pos (digits2_pos m) + 52 + (e + -52))
    with (Z.pos (digits2_pos m) + e) by lia.
  rewrite Hc. replace (e - (e + -52)) with 52 by lia.
  unfold shr, shr_record_of_loc. rewrite shr_shift52. f_equal. lia.
Qed.

Lemma shr_fexp_canonical (m : positive) (e : Z) :
  fexp prec emax (Z.pos (digits2_pos m) + e) = e →
  shr_fexp prec emax (Z.pos m) e loc_Exact
  = (Build_shr_record (Z.pos m) false false, e).
Proof.
  intros Hc. unfold shr_fexp, Zdigits2. rewrite Hc, Z.sub_diag. reflexivity.
Qed.

(** Multiplying a finite float by [1.0] or [-1.0] shifts the mantissa
    back unchanged. *)
Lemma mul_unit_finite (s t : bool) (m : positive) (e : Z) :
  valid (S754_finite s m e) = true →
  mul (S754_finite s m e) (S754_finite t 4503599627370496 (-52))
  = S754_finite (xorb s t) m e.
Proof.
  intros Hv. destruct (valid_canonical s m e Hv) as [Hc He].
  unfold mul, SFmul, binary_round_aux.
  rewrite (shr_fexp_unit m e Hc).
  cbn [shr_m loc_of_shr_record round_nearest_even].
  rewrite (shr_fexp_canonical m e Hc). cbn [shr_m].
  destruct (Z.leb_spec e (emax - prec)) as [_ | Hgt];
    [reflexivity | unfold emax, prec in Hgt; lia].
Qed.

Lemma mul_one (f : float) : valid f = true → mul f one = f.
Proof.
  destruct f as [s|s| |s m e]; intros Hv.
  - cbn. rewrite xorb_false_r. reflexivity.
  - cbn. rewrite xorb_false_r. reflexivity.
  - reflexivity.
  - unfold one. rewrite (mul_unit_finite s false m e Hv), xorb_false_r.
    reflexivity.
Qed.

Lemma mul_neg_one (f : float) : valid f = true → mul f (neg one) = neg f.
Proof.
  destruct f as [s|s| |s m e]; intros Hv.
  - cbn. rewrite xorb_true_r. reflexivity.
  - cbn. rewrite xorb_true_r. reflexivity.
  - reflexivity.
  - unfold one. cbn [neg SFopp negb].
    rewrite (mul_unit_finite s true m e Hv), xorb_true_r. reflexivity.
Qed.

Lemma sub_self (f : float) :
  sub f f = if is_finite f then zero else nan.
Proof.
  destruct f as [s|s| |s m e]; cbn [sub SFsub is_finite].
  - destruct s; reflexivity.
  - destruct s; reflexivity.
  - reflexivity.
  - rewrite Z.sub_diag. reflexivity.
Qed.

Lemma eqb_self (f : float) : eqb f f = negb (is_nan f).
Proof.
  destruct f as [s|s| |s m e]; try reflexivity.
  - destruct s; reflexivity.
  - apply (eqb_refl s). reflexivity.
Qed.

Lemma add_zero_r (f : float) : eqb (add f zero) f = negb (is_nan f).
Proof.
  destruct f as [s|s| |s m e]; try reflexivity.
  - destruct s; reflexivity.
  - destruct s; reflexivity.
  - cbn [add SFadd zero]. apply (eqb_self (S754_finite s m e)).
Qed.

(** ** Algebra of the vector operations *)

Lemma dot_value (a b : vec) :
  Vector2.dot a b
  = Ok (add (mul (vec_x a) (vec_x b)) (mul (vec_y a) (vec_y b))).
Proof. reflexivity. Qed.

Lemma cross_value (a b : vec) :
  Vector2.cross a b
  = Ok (sub (mul (vec_x a) (vec_y b)) (mul (vec_y a) (vec_x b))).
Proof. reflexivity. Qed.


Lemma eq_value (a b : vec) :
  Vector2.__eq__ a (PVec b)
  = Ok (eqb (vec_x a) (vec_x b) && eqb (vec_y a) (vec_y b)).
Proof.
  unfold Vector2.__eq__, Vector2.x, Vector2.y; simpl.
  destruct (eqb (vec_x a) (vec_x b)); reflexivity.
Qed.

Lemma mul_value (v : vec) (s : float) :
  Vector2.__mul__ v (PFloat s) = Ok (Vec (mul (vec_x v) s) (mul (vec_y v) s)).
Proof. reflexivity. Qed.

Lemma neg_value (v : vec) :
  Vector2.__neg__ v = Ok (Vec (neg (vec_x v)) (neg (vec_y v))).
Proof. reflexivity. Qed.

Lemma add_value (a b : vec) :
  Vector2.__add__ a (PVec b)
  = Ok (Vec (add (vec_x a) (vec_x b)) (add (vec_y a) (vec_y b))).
Proof. reflexivity. Qed.

Lemma sub_value (a b : vec) :
  Vector2.__sub__ a (PVec b)
  = Ok (Vec (sub (vec_x a) (vec_x b)) (sub (vec_y a) (vec_y b))).
Proof. reflexivity. Qed.

Lemma bind_Ok {A B} (a : A) (f : A → outcome B) : (Ok a ≫= f) = f a.
Proof. reflexivity. Qed.


(** X2: the cross product of a vector with itself is [+0.0] when the
    product of its components is finite, and NaN when that product is
    infinite or NaN. *)
Theorem cross_self (a : vec) :
  Vector2.cross a a
  = Ok (if is_finite (mul (vec_x a) (vec_y a)) then zero else nan).
Proof.
  rewrite cross_value, (mul_comm (vec_y a)), sub_self. reflexivity.
Qed.

Lemma neg_is_nan (f : float) : is_nan (neg f) = is_nan f.
Proof. destruct f; reflexivity. Qed.

Lemma eqb_zero_zero (f g : float) :
  is_zero_float f = true → is_zero_float g = true → eqb f g = true.
Proof. destruct f, g; try discriminate. reflexivity. Qed.

(** X3: swapping the operands of the cross product negates it: the two
    results are NaN together, and otherwise [a.cross(b) == -(b.cross(a))]. *)
Theorem cross_antisymmetric (a b : vec) :
  ∃ c c', Vector2.cross a b = Ok c ∧ Vector2.cross b a = Ok c' ∧
          is_nan c = is_nan c' ∧ eqb c (neg c') = negb (is_nan c).
Proof.
  rewrite !cross_value. eexists _, _.
  split; [reflexivity | split; [reflexivity |]].
  rewrite (mul_comm (vec_x b)), (mul_comm (vec_y b)).
  set (p := mul (vec_x a) (vec_y b)). set (q := mul (vec_y a) (vec_x b)).
  destruct (sub_swap p q) as [Hs | [Hp Hq]].
  - rewrite Hs at 1 2 3. rewrite neg_is_nan. split; [reflexivity |].
    rewrite eqb_self, neg_is_nan. reflexivity.
  - split.
    + destruct (sub p q), (sub q p); try discriminate; reflexivity.
    + rewrite eqb_zero_zero; [| exact Hp |].
      * destruct (sub p q); try discriminate; reflexivity.
      * destruct (sub q p); try discriminate; reflexivity.
Qed.



(** X6: subtracting a vector is adding its negation. *)
Theorem sub_is_add_neg (a b : vec) :
  Vector2.__sub__ a (PVec b)
  = (nb ← Vector2.__neg__ b; Vector2.__add__ a (PVec nb)).
Proof.
  rewrite neg_value, bind_Ok, sub_value, add_value. cbn [vec_x vec_y].
  rewrite !sub_add_neg. reflexivity.
Qed.

(** X7: negating twice gives back the components, and negation is the
    multiplication by [-1.0]. *)
Theorem neg_spec (v : vec) :
  (nv ← Vector2.__neg__ v; Vector2.__neg__ nv) = Ok v ∧
  (valid (vec_x v) = true → valid (vec_y v) = true →
   Vector2.__mul__ v (PFloat (neg one)) = Vector2.__neg__ v).
Proof.
  split.
  - destruct v as [fx fy]. rewrite neg_value, bind_Ok, neg_value.
    cbn [vec_x vec_y]. rewrite !neg_involutive. reflexivity.
  - intros Vx Vy. rewrite mul_value, neg_value.
    rewrite (mul_neg_one _ Vx), (mul_neg_one _ Vy). reflexivity.
Qed.

Lemma neg_spec_witness :
  Vector2.__mul__ (Vec three (neg tiny)) (PFloat (neg one))
  = Vector2.__neg__ (Vec three (neg tiny)).
Proof.
  apply (neg_spec (Vec three (neg tiny))); reflexivity.
Defined.

(** X8: multiplying by [1.0] returns a vector with the same components. *)
Theorem mul_one_identity (v : vec) :
  valid (vec_x v) = true → valid (vec_y v) = true →
  Vector2.__mul__ v (PFloat one) = Ok v.
Proof.
  intros Vx Vy. destruct v as [fx fy]. rewrite mul_value.
  cbn [vec_x vec_y] in *. rewrite (mul_one _ Vx), (mul_one _ Vy).
  reflexivity.
Qed.

Lemma mul_one_identity_witness :
  Vector2.__mul__ (Vec inf tiny) (PFloat one) = Ok (Vec inf tiny).
Proof. apply (mul_one_identity (Vec inf tiny)); reflexivity. Defined.

(** X9: [a - a] is the zero vector exactly when both components are
    finite (an infinite or NaN component gives NaN), and adding the zero
    vector gives a vector equal to [a] unless a component is NaN. *)
Theorem zero_vector_laws (a : vec) :
  (d ← Vector2.__sub__ a (PVec a); Vector2.is_zero d)
  = Ok (is_finite (vec_x a) && is_finite (vec_y a)) ∧
  (s ← Vector2.__add__ a (PVec (Vec zero zero)); Vector2.__eq__ s (PVec a))
  = Ok (negb (is_nan (vec_x a)) && negb (is_nan (vec_y a))).
Proof.
  split.
  - rewrite sub_value, bind_Ok, is_zero_value. cbn [vec_x vec_y].
    rewrite !sub_self.
    destruct (is_finite (vec_x a)), (is_finite (vec_y a)); reflexivity.
  - rewrite add_value, bind_Ok, eq_value. cbn [vec_x vec_y].
    rewrite !add_zero_r. reflexivity.
Qed.

(** X10: equality is symmetric. *)
Theorem eq_symmetric (a b : vec) :
  Vector2.__eq__ a (PVec b) = Vector2.__eq__ b (PVec a).
Proof.
  rewrite !eq_value, (eqb_sym (vec_x a)), (eqb_sym (vec_y a)). reflexivity.
Qed.

Lemma is_zero_or_comm (a b : vec) (k : bool → outcome float) :
  (z ← Vector2.is_zero a;
   z' ← (if z : bool then mret true else Vector2.is_zero b); k z')
  = (z ← Vector2.is_zero b;
     z' ← (if z : bool then mret true else Vector2.is_zero a); k z').
Proof.
  rewrite !is_zero_value, !bind_Ok.
  destruct (eqb (vec_x a) zero && eqb (vec_y a) zero),
           (eqb (vec_x b) zero && eqb (vec_y b) zero); reflexivity.
Qed.

Section Angles.
Variable math_atan2 : float → float → float.
Variable math_acos : float → outcome float.

(** X11: the angle between two vectors does not depend on their order:
    the same float, or the same exception. *)
Theorem angle_between_symmetric (a b : vec) :
  Vector2.angle_between math_acos a b = Vector2.angle_between math_acos b a.
Proof.
  unfold Vector2.angle_between.
  rewrite (is_zero_or_comm a b). rewrite !is_zero_value, !bind_Ok.
  destruct (magnitude_total a) as [ma Ha], (magnitude_total b) as [mb Hb].
  rewrite !dot_value, Ha, Hb, !bind_Ok.
  rewrite (mul_comm (vec_x a)), (mul_comm (vec_y a)), (mul_comm ma).
  reflexivity.
Qed.


End Angles.


Lemma has_sign_not_nan (s : bool) (f : float) : has_sign s f → is_nan f = false.
Proof. destruct f; simpl; intros H; try reflexivity. contradiction. Qed.

(** X14: [square_magnitude()] is the dot product of the vector with
    itself and the argument of the square root [magnitude()] takes; it is
    NaN exactly when a component is, and has a clear sign bit otherwise. *)
Theorem square_magnitude_spec (v : vec) :
  ∃ s, Vector2.square_magnitude v = Ok s ∧
       Vector2.dot v v = Ok s ∧
       Vector2.magnitude v = math_sqrt s ∧
       is_nan s = is_nan (vec_x v) || is_nan (vec_y v) ∧
       (is_nan s = false → has_sign false s).
Proof.
  eexists. split; [reflexivity |]. split; [reflexivity |].
  split; [apply magnitude_value |].
  destruct (is_nan (vec_x v)) eqn:Hx; [| destruct (is_nan (vec_y v)) eqn:Hy].
  - destruct (vec_x v); try discriminate. rewrite mul_nan_l, add_nan_l.
    split; [reflexivity | discriminate].
  - destruct (vec_y v); try discriminate. rewrite mul_nan_l, add_nan_r.
    split; [reflexivity | discriminate].
  - assert (H : has_sign false (add (mul (vec_x v) (vec_x v))
                                    (mul (vec_y v) (vec_y v))))
      by (apply add_nonneg; apply mul_self_nonneg; assumption).
    split; [apply (has_sign_not_nan _ _ H) | intros _; exact H].
Qed.

(** X15: the sequence protocol is coherent: iterating yields [len(v)]
    items, the item at position [i] is [v[i]], and every index outside
    [0 <= i < len(v)], a negative one included, raises [IndexError];
    [__hash__] returns the pair of the two items. *)
Theorem sequence_protocol (v : vec) :
  ∃ fs, Vector2.__iter__ v = Ok fs ∧
        Vector2.__len__ v = Ok (Z.of_nat (length fs)) ∧
        (∀ i, 0 ≤ i < Z.of_nat (length fs) →
              ∃ f, fs !! Z.to_nat i = Some f ∧
                   Vector2.__getitem__ v i = Ok f) ∧
        (∀ i, i < 0 ∨ Z.of_nat (length fs) ≤ i →
              ∃ msg, Vector2.__getitem__ v i = Raise (IndexError msg)) ∧
        (∃ fx fy, fs = [fx; fy] ∧ Vector2.__hash__ v = Ok (fx, fy)).
Proof.
  exists [vec_x v; vec_y v]. split; [reflexivity |]. split; [reflexivity |].
  cbn [length]. split; [| split; [| eexists _, _; split; reflexivity]].
  - intros i Hi.
    assert (i = 0 ∨ i = 1) as [-> | ->] by lia; eexists;
      (split; reflexivity).
  - intros i Hi. unfold Vector2.__getitem__.
    destruct (Z.eqb_spec i 0) as [-> | _]; [lia |].
    destruct (Z.eqb_spec i 1) as [-> | _]; [lia |].
    eexists. reflexivity.
Qed.

Lemma eqb_true_cases (f g : float) :
  eqb f g = true →
  f = g ∨ (is_zero_float f = true ∧ is_zero_float g = true).
Proof.
  unfold eqb, SFeqb.
  destruct f as [s|s| |s m e], g as [s'|s'| |s' m' e'];
    cbn [SFcompare is_zero_float]; try discriminate; auto;
    try (destruct s; discriminate); try (destruct s'; discriminate).
  - destruct s, s'; try discriminate; auto.
  - destruct s, s'; try discriminate;
      destruct (Z.compare_spec e e') as [-> | |]; try discriminate;
      rewrite Pos.compare_cont_spec; unfold Pos.switch_Eq;
      destruct (Pos.compare_spec m m') as [-> | |]; try discriminate; auto.
Qed.

Lemma eqb_trans (f g k : float) :
  eqb f g = true → eqb g k = true → eqb f k = true.
Proof.
  intros H1 H2.
  destruct (eqb_true_cases _ _ H1) as [-> | [Zf Zg]]; [exact H2 |].
  destruct (eqb_true_cases _ _ H2) as [<- | [_ Zk]]; [exact H1 |].
  apply eqb_zero_zero; assumption.
Qed.

(** X16: equality is transitive. *)
Theorem eq_transitive (a b c : vec) :
  Vector2.__eq__ a (PVec b) = Ok true →
  Vector2.__eq__ b (PVec c) = Ok true →
  Vector2.__eq__ a (PVec c) = Ok true.
Proof.
  rewrite !eq_value. intros H1 H2. f_equal.
  injection H1 as H1. injection H2 as H2.
  apply andb_true_iff in H1 as [H1x H1y]. apply andb_true_iff in H2 as [H2x H2y].
  rewrite (eqb_trans _ _ _ H1x H2x), (eqb_trans _ _ _ H1y H2y). reflexivity.
Qed.

Lemma eq_transitive_witness :
  Vector2.__eq__ (Vec zero three) (PVec (Vec zero three)) = Ok true.
Proof.
  apply (eq_transitive (Vec zero three) (Vec neg_zero three) (Vec zero three));
    reflexivity.
Defined.

(** X17: a copy compares equal to the original, and a vector to itself,
    exactly when no component is NaN. *)
Theorem copy_equal (v : vec) :
  (c ← Vector2.__copy__ v; Vector2.__eq__ c (PVec v))
  = Ok (negb (is_nan (vec_x v)) && negb (is_nan (vec_y v))) ∧
  Vector2.__eq__ v (PVec v)
  = Ok (negb (is_nan (vec_x v)) && negb (is_nan (vec_y v))).
Proof.
  assert (H : Vector2.__copy__ v = Ok v) by (destruct v; reflexivity).
  rewrite H, bind_Ok, eq_value, !eqb_self. split; reflexivity.
Qed.

(** X18: [updated] twice is [updated] once, with the later arguments
    taking precedence; without arguments it is a copy, and with both it
    builds the vector of its arguments. *)
Theorem updated_compose (v : vec) (ux uy ux' uy' : option float) :
  (u ← Vector2.updated v ux uy; Vector2.updated u ux' uy')
  = Vector2.updated v (keep_or ux' ux) (keep_or uy' uy) ∧
  Vector2.updated v None None = Vector2.__copy__ v ∧
  (∀ fx fy, Vector2.updated v (Some fx) (Some fy) = Ok (Vec fx fy)).
Proof.
  split; [| split; [reflexivity | reflexivity]].
  destruct ux, uy, ux', uy'; reflexivity.
Qed.

(** X19: [+] and [-] raise [TypeError] for every operand that is no
    [Vector2], [/] for every operand that is no [float], the integers
    included; the message names the type of the operand. *)
Theorem operand_type_errors (v : vec) (other : pyval vec) :
  (is_vector other = false →
   ∃ m1 m2, Vector2.__add__ v other = Raise (TypeError m1) ∧
            Vector2.__sub__ v other = Raise (TypeError m2) ∧
            occurs_in (type_repr other) m1 ∧
            occurs_in (type_repr other) m2) ∧
  (is_float other = false →
   ∃ m, Vector2.__truediv__ v other = Raise (TypeError m) ∧
        occurs_in (type_repr other) m).
Proof.
  split.
  - intros Hv. destruct other; try discriminate;
      (eexists _, _; split; [reflexivity | split; [reflexivity |]]; split;
       [ exists ("Type " +:+ dquote), (dquote +:+ " cannot be added to Vector2.")
       | exists ("Type " +:+ dquote),
                (dquote +:+ " cannot be subtracted from Vector2.") ];
       reflexivity).
  - intros Hf. destruct other; try discriminate;
      (eexists; split; [reflexivity |];
       exists ("Vector2 cannot be divided by type " +:+ dquote),
              (dquote +:+ "."); reflexivity).
Qed.

Lemma operand_type_errors_witness :
  (∃ m1 m2, Vector2.__add__ (Vec one two) (PFloat one) = Raise (TypeError m1) ∧
            Vector2.__sub__ (Vec one two) (PFloat one) = Raise (TypeError m2) ∧
            occurs_in (type_repr (ref := vec) (PFloat one)) m1 ∧
            occurs_in (type_repr (ref := vec) (PFloat one)) m2) ∧
  (∃ m, Vector2.__truediv__ (Vec one two) (PInt 2) = Raise (TypeError m) ∧
        occurs_in (type_repr (ref := vec) (PInt 2)) m).
Proof.
  split.
  - apply (operand_type_errors (Vec one two) (PFloat one)). reflexivity.
  - apply (operand_type_errors (Vec one two) (PInt 2)). reflexivity.
Defined.

Lemma div_core_nonneg (m1 e1 m2 e2 : Z) :
  0 ≤ m1 → 0 < m2 → 0 ≤ (SFdiv_core_binary prec emax m1 e1 m2 e2).1.1.
Proof.
  intros H1 H2. unfold SFdiv_core_binary.
  match goal with |- context [Z.div_eucl ?m' m2] =>
    assert (Hm : 0 ≤ m');
    [| pose proof (Z_div_mod m' m2 ltac:(lia)) as Hd;
       destruct (Z.div_eucl m' m2) as [q r]; cbn [fst]; nia ]
  end.
  destruct (e1 - e2 - _); [exact H1 | | lia].
  apply Z.shiftl_nonneg, H1.
Qed.

(** The sign of a quotient by a float with a clear sign bit is the sign
    of the dividend. *)
Lemma div_sign (s : bool) (a b : float) :
  has_sign s a → has_sign false b →
  is_nan (div a b) = true ∨ has_sign s (div a b).
Proof.
  destruct a as [sa|sa| |sa ma ea], b as [sb|sb| |sb mb eb];
    cbn [has_sign div SFdiv is_nan]; intros Ha Hb; subst;
    try contradiction; auto; rewrite ?xorb_false_r; auto.
  right.
  pose proof (div_core_nonneg (Z.pos ma) ea (Z.pos mb) eb
                ltac:(lia) ltac:(lia)) as Hq.
  destruct (SFdiv_core_binary prec emax (Z.pos ma) ea (Z.pos mb) eb)
    as [[mz ez] lz]; cbn [fst] in Hq.
  apply binary_round_aux_sign, Hq.
Qed.

Lemma div_nan_r (a : float) : div a nan = nan.
Proof. destruct a; reflexivity. Qed.

Lemma magnitude_sign (v : vec) :
  ∃ m, Vector2.magnitude v = Ok m ∧ (m = nan ∨ has_sign false m).
Proof.
  destruct (is_nan (vec_x v)) eqn:Hx; [| destruct (is_nan (vec_y v)) eqn:Hy].
  - rewrite magnitude_value. destruct (vec_x v); try discriminate.
    rewrite mul_nan_l, add_nan_l. exists nan. split; [reflexivity | auto].
  - rewrite magnitude_value. destruct (vec_y v); try discriminate.
    rewrite mul_nan_l, add_nan_r. exists nan. split; [reflexivity | auto].
  - destruct (magnitude_returns v Hx Hy) as (m & Hm & Hs). eauto.
Qed.

(** X20: normalizing keeps the sign of each component: a component of
    the result is NaN or carries the sign bit of the component it comes
    from. *)
Theorem normalized_keeps_signs (v n : vec) (s : bool) :
  Vector2.normalized v = Ok n →
  (has_sign s (vec_x v) → is_nan (vec_x n) = true ∨ has_sign s (vec_x n)) ∧
  (has_sign s (vec_y v) → is_nan (vec_y n) = true ∨ has_sign s (vec_y n)).
Proof.
  unfold Vector2.normalized. rewrite is_zero_value, bind_Ok.
  destruct (eqb (vec_x v) zero && eqb (vec_y v) zero); [discriminate |].
  destruct (magnitude_sign v) as (m & Hm & Hs). rewrite Hm, bind_Ok.
  destruct (eqb m zero) eqn:Hz.
  - rewrite (truediv_zero _ _ Hz). discriminate.
  - rewrite (truediv_value _ _ Hz). intros [= <-]. cbn [vec_x vec_y].
    destruct Hs as [-> | Hs].
    + rewrite !div_nan_r. auto.
    + split; intros H; apply div_sign; assumption.
Qed.

Lemma normalized_keeps_signs_witness :
  is_nan (div (neg four) five) = true ∨ has_sign true (div (neg four) five).
Proof.
  apply (normalized_keeps_signs (Vec three (neg four))
           (Vec (div three five) (div (neg four) five)) true).
  - vm_compute. reflexivity.
  - reflexivity.
Defined.

(** ** Construction on the store *)

(** X21: [Vector2(fx, fy)] returns a reference to a new object whose
    [x] is [fx] and whose [y] is [fy], and leaves every other object of
    the store as it was. *)
Theorem construct_round_trip (h : heap) (fx fy : float) :
  ∃ l h', construct fx fy h = Some (Ok l, h') ∧
          h !! l = None ∧
          Vector2.x l h' = Some (Ok fx, h') ∧
          Vector2.y l h' = Some (Ok fy, h') ∧
          (∀ l' o, h !! l' = Some o → h' !! l' = Some o).
Proof.
  eexists _, _. split; [apply construct_run |].
  split; [apply fresh_lookup |].
  split; [apply (read_x _ _ (Vec fx fy)), lookup_insert_eq |].
  split; [apply (read_y _ _ (Vec fx fy)), lookup_insert_eq |].
  intros l' o. apply insert_fresh_keeps.
Qed.

Section Refinement.
Variable math_atan2 : float → float → float.
Variable math_acos : float → outcome float.
Variable float_repr : float → string.

(** X22: an operation run on the store gives what it gives on the
    values of its subject and operand: the same scalar, a reference to an
    object holding the same vector, or the same exception. *)
Theorem store_agrees_with_values (h : heap) (self : loc) (v : vec)
    (op : Vector2.operation loc) (op' : Vector2.operation vec) :
  h !! self = Some (object_of v) →
  operation_value h op = Some op' →
  ∃ out h',
    Vector2.call math_atan2 math_acos float_repr self op h = Some (out, h') ∧
    outcome_agrees h' out
      (Vector2.call math_atan2 math_acos float_repr v op').
Proof.
  intros Hself Hop.
  destruct (call_store math_atan2 math_acos float_repr h self v op op'
              Hself Hop) as (out & h' & Hrun & _ & _ & Hagree).
  eauto.
Qed.

End Refinement.

Lemma store_agrees_with_values_witness :
  ∃ out h',
    Vector2.call (λ _ _, zero) (λ _, Ok zero) (λ _, EmptyString)
      1%positive (Vector2.Op_dot 2%positive) sample_heap = Some (out, h') ∧
    outcome_agrees h' out
      (Vector2.call (λ _ _, zero) (λ _, Ok zero) (λ _, EmptyString)
         (Vec three four) (Vector2.Op_dot (Vec one two))).
Proof.
  apply (store_agrees_with_values (λ _ _, zero) (λ _, Ok zero)
           (λ _, EmptyString) sample_heap 1%positive (Vec three four)
           (Vector2.Op_dot 2%positive) (Vector2.Op_dot (Vec one two)));
    reflexivity.
Defined.

(** ** [buffered_read] over a file *)

Import Io.

Section BufferedReadFacts.
Context {char : Type}.
Implicit Types (file : text_file char) (gen : generator char).












Lemma refill_finished file file' (size : Z) (ev : event char) gen' :
  refill size file = (ev, gen', file') →
  (∀ c, ev ≠ Yield c) → gen' = Generator size Finished.
Proof.
  unfold refill. destruct (read file size) as [[[|c rest]|e] f];
    intros [= <- <- <-] H; try reflexivity.
  destruct (H c eq_refl).
Qed.

Lemma advance_finished (n : nat) (size : Z) file :
  advance n (Generator size Finished) file
  = ([], Generator size Finished, file).
Proof. induction n as [|n IH]; [reflexivity | exact IH]. Qed.

(** X26: exhaustion is final.  Once a call of [next] has returned
    [StopIteration] or raised, every later call returns [StopIteration]
    and leaves the file alone, also a file that holds text again. *)
Theorem exhaustion_is_final gen file (ev : event char) gen' file' :
  next gen file = (ev, gen', file') →
  (∀ c, ev ≠ Yield c) →
  ∀ (n : nat) file2,
    next gen' file2 = (StopIteration, gen', file2) ∧
    advance n gen' file2 = ([], gen', file2).
Proof.
  intros Hn Hev.
  assert (Hg : gen' = Generator (bufsize gen) Finished).
  { destruct gen as [size [|[|c rest]|]]; cbn [next gi_frame bufsize] in *.
    - apply (refill_finished _ _ _ _ _ Hn Hev).
    - apply (refill_finished _ _ _ _ _ Hn Hev).
    - injection Hn as <- _ _. destruct (Hev c eq_refl).
    - injection Hn as _ <- _. reflexivity. }
  subst gen'. intros n file2. split; [reflexivity | apply advance_finished].
Qed.



End BufferedReadFacts.




Lemma exhaustion_is_final_witness :
  next (Generator 2 Finished) (TextFile [7; 8] false)
  = (StopIteration, Generator 2 Finished, TextFile [7; 8] false) ∧
  advance 5 (Generator 2 Finished) (TextFile [7; 8] false)
  = ([], Generator 2 Finished, TextFile [7; 8] false).
Proof.
  apply (exhaustion_is_final (Generator 2 (Suspended []))
           (TextFile ([] : list Z) false) StopIteration
           (Generator 2 Finished) (TextFile [] false));
    [reflexivity | discriminate].
Defined.

